(** * TokenFlipper: emote playback, flip and bounce

    A shallow embedding of [scripts/emotes.js] (emote playback, its
    socket relay and the emote macros), [scripts/tokenflipper.js] (flip
    and bounce actions, start-up) and [scripts/emote-config.js] (the
    configuration form), with the properties of the emote
    synchronisation protocol stated over it.

    JavaScript numbers are modelled as exact rationals ([Q]).  The only
    arithmetic the module performs on them is [x * -1], [y - height],
    [duration / 2] and the sprite position; no property below depends on
    rounding.

    An [async] function is modelled as a task: the synchronous prefix of a
    call runs up to its first [await] and leaves a suspended task; the host
    later settles the awaited promise and the task is resumed up to its next
    [await] or to its end.  Between two suspension points nothing else runs
    (single-threaded cooperative scheduling). *)

From Stdlib Require Import QArith.
From stdpp Require Import gmap strings list fin_maps.

Local Open Scope string_scope.
Local Open Scope list_scope.

(** ** JavaScript values used by the module *)

Module Js.

(** The value of a numeric field of a stored emote: absent, NaN or a number. *)
Inductive JsVal : Type :=
| JUndefined
| JNaN
| JNumber (q : Q).

(** [v || d] for a numeric field [v] and a numeric literal [d]:
    [undefined], [NaN] and [0] are falsy and give [d]. *)
Definition js_or (v : JsVal) (d : Q) : Q :=
  match v with
  | JNumber q => if (Qnum q =? 0)%Z then d else q
  | JUndefined | JNaN => d
  end.

(** How an awaited promise settles.  A fulfilled promise carries a value
    that is either an object handle or falsy ([None]). *)
Inductive Settlement : Type :=
| Fulfilled (value : option string)
| Rejected (reason : string).

Definition dquote : string := String (Ascii.ascii_of_nat 34) EmptyString.

End Js.
Export Js.

(** ** Host objects *)

(** An entry of the [emotes] setting. *)
Record Emote : Type := mkEmote {
  emote_id : string;
  emote_name : string;
  emote_image : string;
  emote_offsetX : JsVal;
  emote_offsetY : JsVal;
  emote_scale : JsVal;
  emote_duration : JsVal;
  emote_fadeIn : JsVal;
  emote_fadeOut : JsVal
}.

(** A token placeable together with the fields of its document that the
    module reads or updates. *)
Record Token : Type := mkToken {
  token_name : string;
  token_isOwner : bool;                  (* token.document.isOwner *)
  token_animationContexts : option nat;  (* token.animationContexts?.size *)
  token_x : Q;
  token_y : Q;
  token_w : Q;
  doc_y : Q;                             (* token.document.y *)
  doc_scaleX : Q;                        (* token.document.texture.scaleX *)
  doc_scaleY : Q                         (* token.document.texture.scaleY *)
}.

(** A PIXI sprite created for an emote. *)
Record Sprite : Type := mkSprite {
  sprite_texture : string;
  sprite_anchor : Q * Q;
  sprite_scale : Q;
  sprite_alpha : Q;
  sprite_position : Q * Q;
  sprite_destroyed : bool
}.

Inductive Level : Type := Info | Warn | Error.

(** The message sent on the module's socket channel. *)
Record BroadcastMessage : Type := mkMessage {
  msg_action : string;
  msg_sceneId : option string;
  msg_tokenId : string;
  msg_emoteId : string
}.

(** One entry of the [animations] array given to [CanvasAnimation.animate]. *)
Record Animation : Type := mkAnimation {
  anim_parent : nat;
  anim_attribute : string;
  anim_to : Q
}.

(** The document properties the module updates. *)
Inductive Property : Type :=
| TextureScaleX    (* "texture.scaleX" *)
| TextureScaleY    (* "texture.scaleY" *)
| DocY.            (* "y" *)

(** Calls into the host, in the order the module makes them. *)
Inductive Event : Type :=
| Notify (level : Level) (message : string)          (* ui.notifications.* *)
| Console (level : Level) (message : string)         (* console.* *)
| SocketEmit (message : BroadcastMessage)            (* game.socket.emit *)
| LoadTexture (path : string)                        (* loadTexture *)
| AddChild (sprite : nat)                            (* canvas.tokens.addChild *)
| RemoveChild (sprite : nat)                         (* canvas.tokens.removeChild *)
| Destroy (sprite : nat)                             (* sprite.destroy *)
| Animate (animations : list Animation) (duration : Q) (easing : string)
                                                     (* CanvasAnimation.animate *)
| SetTimeout (ms : Q)                                (* setTimeout *)
| DocumentUpdate (token : string) (property : Property) (value : Q)
    (animate : bool) (duration : Q) (easing : option string).
                                                     (* token.document.update *)

(** ** The state of one client *)

Record World : Type := mkWorld {
  scene : option string;              (* canvas.scene?.id *)
  tokens : gmap string Token;         (* canvas.tokens.get(id) *)
  controlled : list string;           (* canvas.tokens.controlled: the selected
                                         token objects, each named by its id *)
  children : list nat;                (* sprites added to canvas.tokens *)
  sprites : gmap nat Sprite;          (* the sprite objects, by reference *)
  nextSprite : nat;                   (* the reference the next sprite gets *)
  activeEmotes : gmap string nat;     (* the module's activeEmotes map *)
  setting_emotes : option (list Emote);
  setting_flipDuration : Q;
  setting_bounceHeight : Q;
  setting_bounceDuration : Q;
  setting_bounceCount : Z;
  trace : list Event
}.

Definition emit (e : Event) (w : World) : World :=
  mkWorld (scene w) (tokens w) (controlled w) (children w) (sprites w)
    (nextSprite w) (activeEmotes w) (setting_emotes w) (setting_flipDuration w)
    (setting_bounceHeight w) (setting_bounceDuration w) (setting_bounceCount w)
    (trace w ++ [e]).

Definition with_tokens (f : gmap string Token → gmap string Token) (w : World) : World :=
  mkWorld (scene w) (f (tokens w)) (controlled w) (children w) (sprites w)
    (nextSprite w) (activeEmotes w) (setting_emotes w) (setting_flipDuration w)
    (setting_bounceHeight w) (setting_bounceDuration w) (setting_bounceCount w)
    (trace w).

Definition with_children (f : list nat → list nat) (w : World) : World :=
  mkWorld (scene w) (tokens w) (controlled w) (f (children w)) (sprites w)
    (nextSprite w) (activeEmotes w) (setting_emotes w) (setting_flipDuration w)
    (setting_bounceHeight w) (setting_bounceDuration w) (setting_bounceCount w)
    (trace w).

Definition with_sprites (f : gmap nat Sprite → gmap nat Sprite) (w : World) : World :=
  mkWorld (scene w) (tokens w) (controlled w) (children w) (f (sprites w))
    (nextSprite w) (activeEmotes w) (setting_emotes w) (setting_flipDuration w)
    (setting_bounceHeight w) (setting_bounceDuration w) (setting_bounceCount w)
    (trace w).

Definition with_activeEmotes (f : gmap string nat → gmap string nat) (w : World) : World :=
  mkWorld (scene w) (tokens w) (controlled w) (children w) (sprites w)
    (nextSprite w) (f (activeEmotes w)) (setting_emotes w) (setting_flipDuration w)
    (setting_bounceHeight w) (setting_bounceDuration w) (setting_bounceCount w)
    (trace w).

(** [new PIXI.Sprite(...)]: a fresh object in the sprite store. *)
Definition allocSprite (s : Sprite) (w : World) : World * nat :=
  let ref := nextSprite w in
  (mkWorld (scene w) (tokens w) (controlled w) (children w) (<[ref := s]> (sprites w))
     (S ref) (activeEmotes w) (setting_emotes w) (setting_flipDuration w)
     (setting_bounceHeight w) (setting_bounceDuration w) (setting_bounceCount w)
     (trace w), ref).

Definition MODULE_ID : string := "tokenflipper".

(** ** scripts/emotes.js *)

Module Emotes.

(** [getDefaultEmotes] *)
Definition getDefaultEmotes : list Emote :=
  [ mkEmote "exclamation" "Exclamation"
      ("modules/" +:+ MODULE_ID +:+ "/assets/exclamation.svg")
      (JNumber 0) (JNumber (-20)) (JNumber (3 # 4))
      (JNumber 1500) (JNumber 200) (JNumber 200);
    mkEmote "question" "Question"
      ("modules/" +:+ MODULE_ID +:+ "/assets/question.svg")
      (JNumber 0) (JNumber (-20)) (JNumber (3 # 4))
      (JNumber 1500) (JNumber 200) (JNumber 200);
    mkEmote "ellipsis" "Thinking"
      ("modules/" +:+ MODULE_ID +:+ "/assets/ellipsis.svg")
      (JNumber 0) (JNumber (-20)) (JNumber (3 # 4))
      (JNumber 2000) (JNumber 200) (JNumber 200);
    mkEmote "heart" "Heart"
      ("modules/" +:+ MODULE_ID +:+ "/assets/heart.svg")
      (JNumber 0) (JNumber (-20)) (JNumber (3 # 4))
      (JNumber 1500) (JNumber 200) (JNumber 200) ].

(** [emotes.find(e => e.id === emoteId)] *)
Definition findEmote (emoteId : string) (emotes : list Emote) : option Emote :=
  List.find (λ e, bool_decide (emote_id e = emoteId)) emotes.

(** [`${tokenId}-${emoteId}`] *)
Definition emoteKey (tokenId emoteId : string) : string :=
  tokenId +:+ "-" +:+ emoteId.

(** A suspended call of [renderEmoteLocally], named after the [await] it
    is parked on.  [delegated] are the animations handed to
    [CanvasAnimation.animate] (none when [animateSprite] assigned the
    properties at once). *)
Inductive EmoteTask : Type :=
| AwaitTexture (tokenId : string) (token : Token) (emote : Emote) (key : string)
| AwaitFadeIn (sprite : nat) (delegated : list Animation) (emote : Emote) (key : string)
| AwaitHold (sprite : nat) (emote : Emote) (key : string)
| AwaitFadeOut (sprite : nat) (delegated : list Animation) (emote : Emote) (key : string).

(** Assignment to one property of a sprite; the model keeps [alpha], the
    only property the module animates. *)
Definition setProperty (key : string) (value : Q) (s : Sprite) : Sprite :=
  if bool_decide (key = "alpha")
  then mkSprite (sprite_texture s) (sprite_anchor s) (sprite_scale s) value
         (sprite_position s) (sprite_destroyed s)
  else s.

(** [Object.assign(sprite, properties)] *)
Definition objectAssign (sprite : nat) (properties : list (string * Q))
    (store : gmap nat Sprite) : gmap nat Sprite :=
  fold_left (λ st kv, alter (setProperty kv.1 kv.2) sprite st) properties store.

(** [animateSprite] up to the promise it returns: a non-positive duration
    assigns the properties synchronously, anything else is handed to the
    host with easing [easeOutQuad]. *)
Definition animateSprite (sprite : nat) (properties : list (string * Q))
    (duration : Q) (w : World) : World * list Animation :=
  if Qle_bool duration 0
  then (with_sprites (objectAssign sprite properties) w, [])
  else
    let animations := map (λ kv, mkAnimation sprite kv.1 kv.2) properties in
    (emit (Animate animations duration "easeOutQuad") w, animations).

(** Host contract of [CanvasAnimation.animate]: when its promise is
    fulfilled every animated attribute has reached its [to] value. *)
Definition animationsCompleted (animations : list Animation) (w : World) : World :=
  with_sprites
    (λ st, fold_left
             (λ st a, alter (setProperty (anim_attribute a) (anim_to a)) (anim_parent a) st)
             animations st) w.

(** [wait(ms)] up to the promise it returns. *)
Definition wait (ms : Q) (w : World) : World := emit (SetTimeout ms) w.

(** [sprite.destroy()] *)
Definition destroySprite (sprite : nat) (w : World) : World :=
  emit (Destroy sprite)
    (with_sprites
       (alter (λ s, mkSprite (sprite_texture s) (sprite_anchor s) (sprite_scale s)
                      (sprite_alpha s) (sprite_position s) true) sprite) w).

(** [canvas.tokens.addChild(sprite)] and [canvas.tokens.removeChild(sprite)];
    a sprite is added once, so removing it takes out its one occurrence. *)
Definition addChild (sprite : nat) (w : World) : World :=
  emit (AddChild sprite) (with_children (λ c, c ++ [sprite]) w).

Definition removeChild (sprite : nat) (w : World) : World :=
  emit (RemoveChild sprite)
    (with_children (filter (λ c, c ≠ sprite)) w).

(** [renderEmoteLocally], lines 62-81: the guards and the call of
    [loadTexture], up to the first [await]. *)
Definition renderEmoteLocally (sceneId : option string) (tokenId emoteId : string)
    (w : World) : World * option EmoteTask :=
  if bool_decide (scene w ≠ sceneId) then (w, None) else
  match tokens w !! tokenId with
  | None => (w, None)
  | Some token =>
    let emotes := default [] (setting_emotes w) in
    match findEmote emoteId emotes with
    | None => (w, None)
    | Some emote =>
      let key := emoteKey tokenId emoteId in
      if bool_decide (is_Some (activeEmotes w !! key)) then (w, None)
      else (emit (LoadTexture (emote_image emote)) w,
            Some (AwaitTexture tokenId token emote key))
    end
  end.

(** The [catch] block, lines 119-122. *)
Definition catchBlock (key reason : string) (w : World) : World :=
  with_activeEmotes (delete key)
    (emit (Console Error (MODULE_ID +:+ " | Error playing emote: " +:+ reason)) w).

(** Lines 88-106: the texture is loaded; create, place and register the
    sprite and start the fade-in.  The token object is the one found at
    line 66; its position is read now. *)
Definition startSprite (tokenId : string) (token : Token) (emote : Emote)
    (key texture : string) (w : World) : World * option EmoteTask :=
  let token := default token (tokens w !! tokenId) in
  let tokenCenterX := (token_x token + token_w token / 2)%Q in
  let tokenTopY := token_y token in
  let '(w1, sprite) :=
    allocSprite
      (mkSprite texture (1 # 2, 1)%Q (js_or (emote_scale emote) 1) 0
         ((tokenCenterX + js_or (emote_offsetX emote) 0)%Q,
          (tokenTopY + js_or (emote_offsetY emote) 0)%Q)
         false) w in
  let w2 := addChild sprite w1 in
  let w3 := with_activeEmotes (<[key := sprite]>) w2 in
  let '(w4, delegated) :=
    animateSprite sprite [("alpha", 1%Q)] (js_or (emote_fadeIn emote) 200) w3 in
  (w4, Some (AwaitFadeIn sprite delegated emote key)).

(** Resuming a suspended call with the settlement of the promise it
    awaits.  A rejection at any [await] of the [try] block lands in the
    [catch] block.  The promise of [animateSprite] rejects when
    [CanvasAnimation.animate] throws; that of [wait] never does, so the
    hold is resumed with a rejection only by a host that breaks
    [setTimeout].  A promise that never settles leaves the call
    suspended: it is simply never resumed. *)
Definition resume (task : EmoteTask) (s : Settlement) (w : World)
    : World * option EmoteTask :=
  match task, s with
  | AwaitTexture _ _ _ key, Rejected reason
  | AwaitFadeIn _ _ _ key, Rejected reason
  | AwaitHold _ _ key, Rejected reason
  | AwaitFadeOut _ _ _ key, Rejected reason =>
      (catchBlock key reason w, None)
  | AwaitTexture tokenId token emote key, Fulfilled None =>
      (emit (Console Warn
               (MODULE_ID +:+ " | Failed to load emote texture: " +:+ emote_image emote)) w,
       None)
  | AwaitTexture tokenId token emote key, Fulfilled (Some texture) =>
      startSprite tokenId token emote key texture w
  | AwaitFadeIn sprite delegated emote key, Fulfilled _ =>
      let w1 := animationsCompleted delegated w in
      (wait (js_or (emote_duration emote) 1500) w1, Some (AwaitHold sprite emote key))
  | AwaitHold sprite emote key, Fulfilled _ =>
      let '(w1, delegated) :=
        animateSprite sprite [("alpha", 0%Q)] (js_or (emote_fadeOut emote) 200) w in
      (w1, Some (AwaitFadeOut sprite delegated emote key))
  | AwaitFadeOut sprite delegated emote key, Fulfilled _ =>
      let w1 := animationsCompleted delegated w in
      let w2 := removeChild sprite w1 in
      let w3 := destroySprite sprite w2 in
      (with_activeEmotes (delete key) w3, None)
  end.

Definition spawned (t : option EmoteTask) : list EmoteTask :=
  match t with Some t => [t] | None => [] end.

(** The loop of [playEmote], lines 37-53.  [renderEmoteLocally] is not
    awaited: its task is left suspended and the loop goes on.  Reading
    [canvas.scene.id] without a scene is a TypeError that ends the call.
    The selection holds token objects, so an id without a token in the
    store cannot come from the host; such an id is passed over. *)
Fixpoint playEmoteLoop (emoteId : string) (rest : list string) (w : World)
    : World * list EmoteTask :=
  match rest with
  | [] => (w, [])
  | tokenId :: rest' =>
    match tokens w !! tokenId with
    | None => playEmoteLoop emoteId rest' w
    | Some token =>
      if negb (token_isOwner token)
      then playEmoteLoop emoteId rest'
             (emit (Notify Warn ("You don't have permission to emote with "
                                   +:+ token_name token +:+ ".")) w)
      else
        match scene w with
        | None => (w, [])
        | Some sceneId =>
          let '(w1, task) := renderEmoteLocally (Some sceneId) tokenId emoteId w in
          let w2 := emit (SocketEmit (mkMessage "playEmote" (Some sceneId) tokenId emoteId)) w1 in
          let '(w3, tasks) := playEmoteLoop emoteId rest' w2 in
          (w3, spawned task ++ tasks)
        end
    end
  end.

(** [playEmote] *)
Definition playEmote (emoteId : string) (w : World) : World * list EmoteTask :=
  match controlled w with
  | [] => (emit (Notify Warn "No tokens selected for emote.") w, [])
  | _ :: _ =>
    let emotes := default [] (setting_emotes w) in
    match findEmote emoteId emotes with
    | None =>
        (emit (Notify Error ("Emote " +:+ dquote +:+ emoteId +:+ dquote +:+ " not found.")) w,
         [])
    | Some _ => playEmoteLoop emoteId (controlled w) w
    end
  end.

(** The listener installed by [initializeEmoteSockets]. *)
Definition onSocketMessage (data : BroadcastMessage) (w : World)
    : World * option EmoteTask :=
  if bool_decide (msg_action data = "playEmote")
  then renderEmoteLocally (msg_sceneId data) (msg_tokenId data) (msg_emoteId data) w
  else (w, None).

(** *** A client: its world and the playback calls in flight *)

Definition Client : Type := World * list EmoteTask.

(** What can happen next on a client: the user runs [playEmote], a
    message arrives on the socket, or the host settles the promise that
    the playback call at position [i] awaits. *)
Inductive Action : Type :=
| Play (emoteId : string)
| Receive (data : BroadcastMessage)
| Settle (i : nat) (s : Settlement).

Definition step (a : Action) (c : Client) : Client :=
  let '(w, pool) := c in
  match a with
  | Play emoteId =>
      let '(w', tasks) := playEmote emoteId w in (w', pool ++ tasks)
  | Receive data =>
      let '(w', task) := onSocketMessage data w in (w', pool ++ spawned task)
  | Settle i s =>
      match pool !! i with
      | None => c
      | Some task =>
        match resume task s w with
        | (w', Some task') => (w', <[i := task']> pool)
        | (w', None) => (w', delete i pool)
        end
      end
  end.

Definition run (actions : list Action) (c : Client) : Client :=
  fold_left (λ c a, step a c) actions c.

(** One playback call followed to the end with nothing else running:
    the settlements are those of its successive [await]s.  The result
    is the world and the task still suspended when they run out. *)
Fixpoint resumeAll (task : option EmoteTask) (settlements : list Settlement)
    (w : World) : World * option EmoteTask :=
  match task, settlements with
  | Some t, s :: rest => let '(w', t') := resume t s w in resumeAll t' rest w'
  | _, _ => (w, task)
  end.

Definition playback (sceneId : option string) (tokenId emoteId : string)
    (settlements : list Settlement) (w : World) : World * option EmoteTask :=
  let '(w', task) := renderEmoteLocally sceneId tokenId emoteId w in
  resumeAll task settlements w'.

End Emotes.

(** ** scripts/tokenflipper.js *)

Module Flipper.

(** [foundry.utils.getProperty(token.document, property)] *)
Definition getProperty (property : Property) (token : Token) : Q :=
  match property with
  | TextureScaleX => doc_scaleX token
  | TextureScaleY => doc_scaleY token
  | DocY => doc_y token
  end.

Definition setProperty (property : Property) (value : Q) (t : Token) : Token :=
  match property with
  | TextureScaleX =>
      mkToken (token_name t) (token_isOwner t) (token_animationContexts t)
        (token_x t) (token_y t) (token_w t) (doc_y t) value (doc_scaleY t)
  | TextureScaleY =>
      mkToken (token_name t) (token_isOwner t) (token_animationContexts t)
        (token_x t) (token_y t) (token_w t) (doc_y t) (doc_scaleX t) value
  | DocY =>
      mkToken (token_name t) (token_isOwner t) (token_animationContexts t)
        (token_x t) (token_y t) (token_w t) value (doc_scaleX t) (doc_scaleY t)
  end.

(** Host contract of [token.document.update]: when its promise is
    fulfilled the document carries the new value.  The animation
    contexts of the token belong to the host and are not touched here. *)
Definition documentUpdated (tokenId : string) (property : Property) (value : Q)
    (w : World) : World :=
  with_tokens (alter (setProperty property value) tokenId) w.

(** [token.animationContexts?.size > 0] *)
Definition isAnimating (token : Token) : bool :=
  match token_animationContexts token with
  | Some size => (0 <? size)%nat
  | None => false
  end.

(** [direction === "vertical" ? "texture.scaleY" : "texture.scaleX"] *)
Definition flipProperty (direction : string) : Property :=
  if bool_decide (direction = "vertical") then TextureScaleY else TextureScaleX.

(** How far a call followed on its own got with the settlements given. *)
Inductive Completion : Type :=
| Returned
| Threw (reason : string)
| Suspended.

(** The loop of [flipSelectedTokens], lines 164-181.  Each update is
    awaited before the next token is looked at; [host] holds the
    settlements of the successive updates: when they run out the call
    stays suspended on the update it has just requested, and a rejected
    update is thrown out of the call.  An id without a token in the
    store is passed over, as in [playEmote]. *)
Fixpoint flipLoop (property : Property) (duration : Q) (rest : list string)
    (host : list Settlement) (w : World) : World * Completion :=
  match rest with
  | [] => (w, Returned)
  | tokenId :: rest' =>
    match tokens w !! tokenId with
    | None => flipLoop property duration rest' host w
    | Some token =>
      if negb (token_isOwner token)
      then flipLoop property duration rest' host
             (emit (Notify Warn ("You don't have permission to flip "
                                   +:+ token_name token +:+ ".")) w)
      else if isAnimating token
      then flipLoop property duration rest' host w
      else
        let currentValue := getProperty property token in
        let value := (currentValue * -1)%Q in
        let w1 := emit (DocumentUpdate tokenId property value
                          (negb (Qle_bool duration 0)) duration None) w in
        match host with
        | [] => (w1, Suspended)
        | Rejected reason :: _ => (w1, Threw reason)
        | Fulfilled _ :: host' =>
            flipLoop property duration rest' host'
              (documentUpdated tokenId property value w1)
        end
    end
  end.

(** [flipSelectedTokens] *)
Definition flipSelectedTokens (direction : string) (host : list Settlement)
    (w : World) : World * Completion :=
  match controlled w with
  | [] => (emit (Notify Warn "No tokens selected to flip.") w, Returned)
  | _ :: _ =>
    flipLoop (flipProperty direction) (setting_flipDuration w) (controlled w) host w
  end.

(** A suspended call of [doBounceAnimation]: it awaits the update that
    moves the token up, or the one that moves it back down, in
    iteration [i] of its loop. *)
Inductive BouncePhase : Type := Up | Down.

Record BounceTask : Type := mkBounce {
  bounce_token : string;
  bounce_originalY : Q;
  bounce_height : Q;
  bounce_duration : Q;
  bounce_count : Z;
  bounce_i : Z;
  bounce_phase : BouncePhase
}.

Definition bounceUp (tokenId : string) (originalY height duration : Q) : Event :=
  DocumentUpdate tokenId DocY (originalY - height)%Q true (duration / 2)%Q
    (Some "easeOutQuad").

Definition bounceDown (tokenId : string) (originalY duration : Q) : Event :=
  DocumentUpdate tokenId DocY originalY true (duration / 2)%Q (Some "easeInQuad").

(** The head of the [for] loop, lines 223-228: test [i < count] and
    issue the update that moves the token up. *)
Definition bounceIteration (tokenId : string) (originalY height duration : Q)
    (count i : Z) (w : World) : World * option BounceTask :=
  if (i <? count)%Z
  then (emit (bounceUp tokenId originalY height duration) w,
        Some (mkBounce tokenId originalY height duration count i Up))
  else (w, None).

(** [doBounceAnimation] up to its first [await]. *)
Definition doBounceAnimation (tokenId : string) (height duration : Q) (count : Z)
    (w : World) : World * option BounceTask :=
  match tokens w !! tokenId with
  | None => (w, None)
  | Some token =>
    let originalY := doc_y token in
    bounceIteration tokenId originalY height duration count 0 w
  end.

(** Resuming [doBounceAnimation].  A rejected update ends the call (the
    rejection is not caught). *)
Definition resume (task : BounceTask) (s : Settlement) (w : World)
    : World * option BounceTask :=
  let tokenId := bounce_token task in
  let originalY := bounce_originalY task in
  let height := bounce_height task in
  let duration := bounce_duration task in
  match s with
  | Rejected _ => (w, None)
  | Fulfilled _ =>
    match bounce_phase task with
    | Up =>
        let w1 := documentUpdated tokenId DocY (originalY - height)%Q w in
        (emit (bounceDown tokenId originalY duration) w1,
         Some (mkBounce tokenId originalY height duration
                 (bounce_count task) (bounce_i task) Down))
    | Down =>
        let w1 := documentUpdated tokenId DocY originalY w in
        bounceIteration tokenId originalY height duration
          (bounce_count task) (bounce_i task + 1) w1
    end
  end.

Definition spawned (t : option BounceTask) : list BounceTask :=
  match t with Some t => [t] | None => [] end.

(** The loop of [bounceSelectedTokens], lines 199-210.
    [doBounceAnimation] is not awaited. *)
Fixpoint bounceLoop (height duration : Q) (count : Z) (rest : list string)
    (w : World) : World * list BounceTask :=
  match rest with
  | [] => (w, [])
  | tokenId :: rest' =>
    match tokens w !! tokenId with
    | None => bounceLoop height duration count rest' w
    | Some token =>
      if negb (token_isOwner token)
      then bounceLoop height duration count rest'
             (emit (Notify Warn ("You don't have permission to bounce "
                                   +:+ token_name token +:+ ".")) w)
      else if isAnimating token
      then bounceLoop height duration count rest' w
      else
        let '(w1, task) := doBounceAnimation tokenId height duration count w in
        let '(w2, tasks) := bounceLoop height duration count rest' w1 in
        (w2, spawned task ++ tasks)
    end
  end.

(** [bounceSelectedTokens] *)
Definition bounceSelectedTokens (w : World) : World * list BounceTask :=
  match controlled w with
  | [] => (emit (Notify Warn "No tokens selected to bounce.") w, [])
  | _ :: _ =>
    bounceLoop (setting_bounceHeight w) (setting_bounceDuration w)
      (setting_bounceCount w) (controlled w) w
  end.

(** The host settles the update awaited by the bounce at position [i]
    of the calls in flight. *)
Definition settle (i : nat) (s : Settlement) (c : World * list BounceTask)
    : World * list BounceTask :=
  let '(w, pool) := c in
  match pool !! i with
  | None => c
  | Some task =>
    match resume task s w with
    | (w', Some task') => (w', <[i := task']> pool)
    | (w', None) => (w', delete i pool)
    end
  end.

(** Any order in which the host fulfils the pending updates. *)
Definition settleAll (schedule : list nat) (c : World * list BounceTask)
    : World * list BounceTask :=
  fold_left (λ c i, settle i (Fulfilled None) c) schedule c.

End Flipper.

(** ** A concrete table: scene S with tokens T (owned), A, B (owned) and
       N (owned by someone else), and the default emotes *)

Module Scenario.

Definition tokenT : Token := mkToken "Goblin" true (Some 0%nat) 100 200 50 200 1 1.
Definition tokenA : Token := mkToken "Alice" true None 0 40 50 40 1 1.
Definition tokenB : Token := mkToken "Bob" true (Some 0%nat) 300 75 50 75 (-1) 1.
Definition tokenN : Token := mkToken "Nemesis" false (Some 0%nat) 500 10 50 10 1 1.

Definition table (selection : list string) : World :=
  mkWorld (Some "S")
    (<["T" := tokenT]> (<["A" := tokenA]> (<["B" := tokenB]> {["N" := tokenN]})))
    selection [] ∅ 0 ∅ (Some Emotes.getDefaultEmotes) 200 20 150 3 [].

Definition heartOnT : BroadcastMessage := mkMessage "playEmote" (Some "S") "T" "heart".

Definition settled : Settlement := Fulfilled None.
Definition heartTexture : Settlement := Fulfilled (Some "heart.svg").

(** An emote stored with every timing, scale and offset field at zero
    or absent. *)
Definition blank : Emote :=
  mkEmote "blank" "Blank" "blank.svg"
    (JNumber 0) JUndefined (JNumber 0) (JNumber 0) JUndefined (JNumber 0).

End Scenario.

(** ** Observations on tasks and traces used in the statements *)

Module Observe.
Import Emotes.

(** The registry key a suspended playback call works under. *)
Definition taskKey (task : EmoteTask) : string :=
  match task with
  | AwaitTexture _ _ _ key | AwaitFadeIn _ _ _ key
  | AwaitHold _ _ key | AwaitFadeOut _ _ _ key => key
  end.

(** The number of [await]s a suspended playback call still has to pass. *)
Definition awaitsLeft (task : EmoteTask) : nat :=
  match task with
  | AwaitTexture _ _ _ _ => 4
  | AwaitFadeIn _ _ _ _ => 3
  | AwaitHold _ _ _ => 2
  | AwaitFadeOut _ _ _ _ => 1
  end.

Definition isLoading (task : EmoteTask) : bool :=
  match task with AwaitTexture _ _ _ _ => true | _ => false end.

(** A stored field that is [0] or absent. *)
Definition zeroOrMissing (v : JsVal) : bool :=
  match v with
  | JUndefined => true
  | JNumber q => (Qnum q =? 0)%Z
  | JNaN => false
  end.

Definition isFulfilled (s : Settlement) : bool :=
  match s with Fulfilled _ => true | Rejected _ => false end.

(** The host starts and ends animations on its own account: it may
    replace the animation contexts of every token at any suspension
    point. *)
Definition withContexts (contexts : option nat) (t : Token) : Token :=
  mkToken (token_name t) (token_isOwner t) contexts
    (token_x t) (token_y t) (token_w t) (doc_y t) (doc_scaleX t) (doc_scaleY t).

Definition hostAnimations (contexts : string → option nat) (w : World) : World :=
  with_tokens (map_imap (λ id t, Some (withContexts (contexts id) t))) w.


Definition owned (w : World) (tokenId : string) : bool :=
  match tokens w !! tokenId with
  | Some token => token_isOwner token
  | None => false
  end.

(** The permission warning of an action for a selected token, if the
    token is not owned. *)
Definition permissionWarning (verb : string) (w : World) (tokenId : string)
    : option Event :=
  match tokens w !! tokenId with
  | Some token =>
      if token_isOwner token then None
      else Some (Notify Warn ("You don't have permission to " +:+ verb +:+ " "
                                +:+ token_name token +:+ "."))
  | None => None
  end.

(** The notifications shown to the user, the tokens whose document was
    updated and the messages put on the socket, in order. *)
Definition notifications (events : list Event) : list Event :=
  List.filter (λ e, match e with Notify _ _ => true | _ => false end) events.

Definition updateTargets (events : list Event) : list string :=
  omap (λ e, match e with DocumentUpdate t _ _ _ _ _ => Some t | _ => None end) events.

Definition emitted (events : list Event) : list BroadcastMessage :=
  omap (λ e, match e with SocketEmit m => Some m | _ => None end) events.

(** The document updates requested for one token, in order. *)
Definition updatesOf (tokenId : string) (events : list Event) : list Event :=
  List.filter
    (λ e, match e with
          | DocumentUpdate t _ _ _ _ _ => bool_decide (t = tokenId)
          | _ => false
          end) events.

(** [n] up/down cycles around [y0]. *)
Definition cycles (tokenId : string) (y0 height duration : Q) (n : nat) : list Event :=
  concat (repeat [Flipper.bounceUp tokenId y0 height duration;
                  Flipper.bounceDown tokenId y0 duration] n).

(** The bounces in flight for one token. *)
Definition bouncesOf (tokenId : string) (pool : list Flipper.BounceTask)
    : list Flipper.BounceTask :=
  List.filter (λ t, bool_decide (Flipper.bounce_token t = tokenId)) pool.

(** The updates a suspended bounce has requested in its current
    iteration. *)
Definition requestedInIteration (task : Flipper.BounceTask) : list Event :=
  let up := Flipper.bounceUp (Flipper.bounce_token task) (Flipper.bounce_originalY task)
              (Flipper.bounce_height task) (Flipper.bounce_duration task) in
  let down := Flipper.bounceDown (Flipper.bounce_token task)
                (Flipper.bounce_originalY task) (Flipper.bounce_duration task) in
  match Flipper.bounce_phase task with
  | Flipper.Up => [up]
  | Flipper.Down => [up; down]
  end.

(** How far the bounce of one token has got, in a client with bounces
    in flight: either the token has one bounce in flight, which is in
    iteration [i] after [i] full cycles around [y0], or it has none, all
    [count] cycles were requested and the document is back at [y0].
    [before] are the updates requested for the token before the
    bounce. *)
Definition bounceProgress (tokenId : string) (y0 height duration : Q) (count : Z)
    (before : list Event) (c : World * list Flipper.BounceTask) : Prop :=
  is_Some (tokens c.1 !! tokenId)
  ∧ match bouncesOf tokenId c.2 with
    | [] =>
        updatesOf tokenId (trace c.1)
        = before ++ cycles tokenId y0 height duration (Z.to_nat count)
        ∧ doc_y <$> tokens c.1 !! tokenId = Some y0
    | [task] =>
        task = Flipper.mkBounce tokenId y0 height duration count
                 (Flipper.bounce_i task) (Flipper.bounce_phase task)
        ∧ (0 ≤ Flipper.bounce_i task < count)%Z
        ∧ updatesOf tokenId (trace c.1)
          = before
            ++ cycles tokenId y0 height duration (Z.to_nat (Flipper.bounce_i task))
            ++ requestedInIteration task
    | _ => False
    end.

(** The number of updates a suspended bounce still has to await. *)
Definition awaitsAhead (task : Flipper.BounceTask) : nat :=
  (match Flipper.bounce_phase task with Flipper.Up => 2 | Flipper.Down => 1 end
   + 2 * Z.to_nat (Flipper.bounce_count task - Flipper.bounce_i task - 1))%nat.

Definition awaitsAheadAll (pool : list Flipper.BounceTask) : nat :=
  list_sum (map awaitsAhead pool).

(** The token is owned and no playback of the emote is registered for
    it. *)
Definition rendersLocally (w : World) (emoteId tokenId : string) : bool :=
  owned w tokenId
  && negb (bool_decide (is_Some (activeEmotes w !! emoteKey tokenId emoteId))).


End Observe.
Export Observe.

(** ** The rest of the module: start-up, macros and the configuration form *)

Definition with_setting_emotes (emotes : option (list Emote)) (w : World) : World :=
  mkWorld (scene w) (tokens w) (controlled w) (children w) (sprites w)
    (nextSprite w) (activeEmotes w) emotes (setting_flipDuration w)
    (setting_bounceHeight w) (setting_bounceDuration w) (setting_bounceCount w)
    (trace w).

(** [await game.settings.set(MODULE_ID, "emotes", value)] followed by
    [after]: when the host fulfils the write the setting holds [value]
    and the handler goes on; a rejected write is thrown out of the
    handler. *)
Definition settingsSet (value : list Emote) (s : Settlement) (after : World → World)
    (w : World) : World * Flipper.Completion :=
  match s with
  | Fulfilled _ => (after (with_setting_emotes (Some value) w), Flipper.Returned)
  | Rejected reason => (w, Flipper.Threw reason)
  end.

Module Startup.

(** [initializeDefaultEmotes] of scripts/tokenflipper.js, lines 135-147.
    [isGM] is [game.user.isGM]; the setting is read without a fallback,
    so a missing value makes [emotes.length] a TypeError.  [console.log]
    is recorded at level [Info]. *)
Definition initializeDefaultEmotes (isGM : bool) (s : Settlement) (w : World)
    : World * Flipper.Completion :=
  if negb isGM then (w, Flipper.Returned) else
  match setting_emotes w with
  | None => (w, Flipper.Threw "TypeError")
  | Some [] =>
      settingsSet Emotes.getDefaultEmotes s
        (emit (Console Info (MODULE_ID +:+ " | Initialized default emotes"))) w
  | Some (_ :: _) => (w, Flipper.Returned)
  end.

End Startup.

Module Macros.

(** What [Macro.create] is given. *)
Record Macro : Type := mkMacro {
  macro_name : string;
  macro_type : string;
  macro_command : string;
  macro_img : string;
  macro_emoteId : string      (* flags.tokenflipper.emoteId *)
}.

(** [`Emote: ${emote.name}`] *)
Definition macroName (emote : Emote) : string := "Emote: " +:+ emote_name emote.

(** [`game.modules.get("${MODULE_ID}").api.playEmote("${emote.id}");`] *)
Definition macroCommand (emote : Emote) : string :=
  "game.modules.get(" +:+ dquote +:+ MODULE_ID +:+ dquote +:+ ").api.playEmote("
    +:+ dquote +:+ emote_id emote +:+ dquote +:+ ");".

(** [createEmoteMacro], lines 220-241 of scripts/emotes.js, over the
    macros of the world ([game.macros]).  When [Macro.create] is
    fulfilled the new macro is among the macros of the world; when it
    is rejected the call throws and returns nothing. *)
Definition createEmoteMacro (emote : Emote) (s : Settlement) (macros : list Macro)
    (w : World) : World * list Macro * option Macro :=
  match List.find (λ m, bool_decide (macro_name m = macroName emote)) macros with
  | Some existingMacro =>
      (emit (Notify Info ("Macro " +:+ dquote +:+ macroName emote +:+ dquote
                            +:+ " already exists.")) w,
       macros, Some existingMacro)
  | None =>
      match s with
      | Rejected _ => (w, macros, None)
      | Fulfilled _ =>
          let macro := mkMacro (macroName emote) "script" (macroCommand emote)
                         (emote_image emote) (emote_id emote) in
          (emit (Notify Info ("Created macro " +:+ dquote +:+ macroName emote +:+ dquote
                                +:+ ". Drag it to your hotbar!")) w,
           macros ++ [macro], Some macro)
      end
  end.

End Macros.

(** ** scripts/emote-config.js *)

Module Config.

(** One entry of [expandedData.emotes]: the submitted strings of a row,
    the numeric ones already through [parseInt] / [parseFloat] (a number
    or NaN).  A text field that is absent is [None]. *)
Record FormRow : Type := mkRow {
  row_name : option string;
  row_image : option string;
  row_offsetX : JsVal;
  row_offsetY : JsVal;
  row_scale : JsVal;
  row_duration : JsVal;
  row_fadeIn : JsVal;
  row_fadeOut : JsVal
}.

(** [submitted || current] for text: absent and empty are falsy. *)
Definition orText (submitted : option string) (current : string) : string :=
  match submitted with
  | Some text => if bool_decide (text = "") then current else text
  | None => current
  end.

(** Lines 409-416: the assignments to [emotes[i]]. *)
Definition updateEmote (data : FormRow) (e : Emote) : Emote :=
  mkEmote (emote_id e)
    (orText (row_name data) (emote_name e))
    (orText (row_image data) (emote_image e))
    (JNumber (js_or (row_offsetX data) 0))
    (JNumber (js_or (row_offsetY data) 0))
    (JNumber (js_or (row_scale data) 1))
    (JNumber (js_or (row_duration data) 1500))
    (JNumber (js_or (row_fadeIn data) 200))
    (JNumber (js_or (row_fadeOut data) 200)).

(** The body of the loop, lines 407-417.  [index] is [parseInt] of the
    key; a negative value stands for every key that names no position
    of an array. *)
Definition applyRow (emotes : list Emote) (entry : Z * FormRow) : list Emote :=
  let '(index, data) := entry in
  if (index <? 0)%Z then emotes
  else
    match emotes !! Z.to_nat index with
    | Some e => <[Z.to_nat index := updateEmote data e]> emotes
    | None => emotes
    end.

(** [_updateObject], lines 399-422.  [formEmotes] is [expandedData.emotes],
    absent when the form carries no emote field. *)
Definition updateObject (formEmotes : option (list (Z * FormRow))) (s : Settlement)
    (w : World) : World * Flipper.Completion :=
  let emotes := default [] (setting_emotes w) in
  let emotes :=
    match formEmotes with
    | Some entries => fold_left applyRow entries emotes
    | None => emotes
    end in
  settingsSet emotes s (λ w, w) w.

(** The emote pushed by [_onAddEmote], lines 327-337.  [stamp] is
    [Date.now()] in decimal. *)
Definition newEmote (stamp : string) : Emote :=
  mkEmote ("emote-" +:+ stamp) "New Emote" ""
    (JNumber 0) (JNumber (-20)) (JNumber 1)
    (JNumber 1500) (JNumber 200) (JNumber 200).

(** [_onAddEmote], lines 320-341; re-rendering the form is the host's. *)
Definition onAddEmote (stamp : string) (s : Settlement) (w : World)
    : World * Flipper.Completion :=
  let emotes := default [] (setting_emotes w) in
  settingsSet (emotes ++ [newEmote stamp]) s (λ w, w) w.

(** [_onDeleteEmote], lines 343-358.  [confirmed] is what
    [Dialog.confirm] resolved to. *)
Definition onDeleteEmote (emoteId : string) (confirmed : bool) (s : Settlement)
    (w : World) : World * Flipper.Completion :=
  if negb confirmed then (w, Flipper.Returned) else
  let emotes := default [] (setting_emotes w) in
  let filtered := List.filter (λ e, negb (bool_decide (emote_id e = emoteId))) emotes in
  settingsSet filtered s (λ w, w) w.

(** [_onResetDefaults], lines 383-397. *)
Definition onResetDefaults (confirmed : bool) (s : Settlement) (w : World)
    : World * Flipper.Completion :=
  if negb confirmed then (w, Flipper.Returned) else
  settingsSet Emotes.getDefaultEmotes s
    (emit (Notify Info "Emotes reset to defaults.")) w.

(** [_onPreviewEmote], lines 371-381. *)
Definition onPreviewEmote (emoteId : string) (w : World)
    : World * list Emotes.EmoteTask :=
  match controlled w with
  | [] => (emit (Notify Warn "Select a token to preview the emote.") w, [])
  | _ :: _ => Emotes.playEmote emoteId w
  end.

(** [_onCreateMacro], lines 360-369. *)
Definition onCreateMacro (emoteId : string) (s : Settlement)
    (macros : list Macros.Macro) (w : World) : World * list Macros.Macro :=
  match Emotes.findEmote emoteId (default [] (setting_emotes w)) with
  | Some emote => (Macros.createEmoteMacro emote s macros w).1
  | None => (w, macros)
  end.

End Config.

(** ** Further observations used in the statements *)

Module Shape.

(** Sprite references are handed out once: the children of the scene
    are distinct, were all allocated, and have their object in the
    store; the registry names allocated sprites only. *)
Definition spritesFresh (w : World) : Prop :=
  NoDup (children w)
  ∧ (∀ s, s ∈ children w → (s < nextSprite w)%nat ∧ is_Some (sprites w !! s))
  ∧ (∀ key s, activeEmotes w !! key = Some s → (s < nextSprite w)%nat).

(** The character [-] and the strings without it. *)
Definition dash : Ascii.ascii := Ascii.ascii_of_nat 45.

Fixpoint dashFree (s : string) : bool :=
  match s with
  | EmptyString => true
  | String c rest => negb (bool_decide (c = dash)) && dashFree rest
  end.

(** The leading settlements that are fulfilments. *)
Fixpoint fulfilledPrefix (host : list Settlement) : nat :=
  match host with
  | Fulfilled _ :: rest => S (fulfilledPrefix rest)
  | _ => 0
  end.

(** A stored emote whose scale and timings are numbers other than 0:
    playback uses them as they are. *)
Definition nonZeroNumber (v : JsVal) : bool :=
  match v with
  | JNumber q => negb (Qnum q =? 0)%Z
  | JUndefined | JNaN => false
  end.

Definition playsAsStored (e : Emote) : bool :=
  nonZeroNumber (emote_scale e) && nonZeroNumber (emote_duration e)
  && nonZeroNumber (emote_fadeIn e) && nonZeroNumber (emote_fadeOut e).

(** The world after some more host calls were made and nothing else
    happened. *)
Definition logged (events : list Event) (w : World) : World :=
  fold_left (λ w e, emit e w) events w.


(** The playback calls in flight that work under a key. *)
Definition callsOf (key : string) (pool : list Emotes.EmoteTask) : list Emotes.EmoteTask :=
  List.filter (λ t, bool_decide (taskKey t = key)) pool.

(** The key is registered to [sprite] and one call works under it, which
    is past loading. *)
Definition soleRegistered (key : string) (sprite : nat) (c : Emotes.Client) : Prop :=
  activeEmotes c.1 !! key = Some sprite
  ∧ ∃ task, callsOf key c.2 = [task] ∧ isLoading task = false.

(** The action is the settlement that ends a call working under the
    key: one of its promises is rejected, or its fade-out is over. *)
Definition endsCall (key : string) (a : Emotes.Action) (c : Emotes.Client) : bool :=
  match a with
  | Emotes.Settle i s =>
      match c.2 !! i with
      | Some task =>
          bool_decide (taskKey task = key)
          && (negb (isFulfilled s) || (awaitsLeft task =? 1)%nat)
      | None => false
      end
  | _ => false
  end.

(** None of the actions, taken in turn, ends a call working under the
    key. *)
Fixpoint callGoesOn (key : string) (actions : list Emotes.Action) (c : Emotes.Client)
    : bool :=
  match actions with
  | [] => true
  | a :: rest => negb (endsCall key a c) && callGoesOn key rest (Emotes.step a c)
  end.


(** The number of fulfilments in a schedule that go to the bounce of one
    token: those of its pending updates. *)
Fixpoint fulfilledFor (tokenId : string) (schedule : list nat)
    (c : World * list Flipper.BounceTask) : nat :=
  match schedule with
  | [] => 0
  | i :: rest =>
      (match c.2 !! i with
       | Some task => if bool_decide (Flipper.bounce_token task = tokenId) then 1 else 0
       | None => 0
       end
       + fulfilledFor tokenId rest (Flipper.settle i (Fulfilled None) c))%nat
  end.

(** Where the bounce of one token stands after [k] of its updates were
    fulfilled: one more update than that has been requested, the
    document is up after an odd number and down after an even number,
    and the call is suspended in the half-step that comes next, or over
    after twice [count] fulfilments. *)
Definition bounceAfter (tokenId : string) (y0 height duration : Q) (count : Z)
    (before : list Event) (k : nat) (c : World * list Flipper.BounceTask) : Prop :=
  (k ≤ 2 * Z.to_nat count)%nat
  ∧ updatesOf tokenId (trace c.1)
    = before ++ take (S k) (cycles tokenId y0 height duration (Z.to_nat count))
  ∧ doc_y <$> tokens c.1 !! tokenId
    = Some (if Nat.even k then y0 else (y0 - height)%Q)
  ∧ bouncesOf tokenId c.2
    = if (k <? 2 * Z.to_nat count)%nat
      then [Flipper.mkBounce tokenId y0 height duration count (Z.of_nat (k / 2))
              (if Nat.even k then Flipper.Up else Flipper.Down)]
      else [].

End Shape.
Export Shape.

(** * Properties of emote playback *)

Section EmoteFacts.
Import Emotes.

Lemma emit_trace e w : trace (emit e w) = trace w ++ [e].
Proof. reflexivity. Qed.

(** A trigger for a key that is registered is dropped. *)
Lemma registered_key_suppresses w sceneId tokenId emoteId sprite :
  activeEmotes w !! emoteKey tokenId emoteId = Some sprite →
  renderEmoteLocally sceneId tokenId emoteId w = (w, None).
Proof.
  intros Hactive. unfold renderEmoteLocally.
  case_bool_decide; [done|].
  destruct (tokens w !! tokenId); [|done].
  destruct (findEmote emoteId _); [|done].
  rewrite bool_decide_true; [done|]. by rewrite Hactive.
Qed.

(** [animateSprite] never touches the registry, the scene's children or
    the tokens. *)
Lemma animateSprite_frame sprite properties duration w :
  let w' := (animateSprite sprite properties duration w).1 in
  activeEmotes w' = activeEmotes w ∧ children w' = children w
  ∧ tokens w' = tokens w ∧ nextSprite w' = nextSprite w.
Proof. unfold animateSprite. by destruct (Qle_bool duration 0). Qed.

(** What a rejection does, at whichever [await] it arrives: the key is
    unregistered and the error logged; the scene's children and the
    sprite objects stay as they are. *)
Lemma rejection_only_unregisters task reason w :
  let key := match task with
             | AwaitTexture _ _ _ key | AwaitFadeIn _ _ _ key
             | AwaitHold _ _ key | AwaitFadeOut _ _ _ key => key
             end in
  ∃ w', resume task (Rejected reason) w = (w', None)
        ∧ activeEmotes w' = delete key (activeEmotes w)
        ∧ children w' = children w
        ∧ sprites w' = sprites w.
Proof. destruct task; simpl; eauto. Qed.

End EmoteFacts.

Section EmoteClaims.
Import Emotes Scenario.

(** C5.  A playback request for a scene other than the one this client
    is viewing returns at once and changes nothing: the world, with its
    sprites, scene children, registry and log, is the same, and no call
    is left in flight.  The same holds when the request arrives as a
    socket message. *)
Theorem other_scene_request_has_no_effect
    (w : World) (sceneId : option string) (tokenId emoteId : string)
    (pool : list EmoteTask) :
  scene w ≠ sceneId →
  renderEmoteLocally sceneId tokenId emoteId w = (w, None)
  ∧ step (Receive (mkMessage "playEmote" sceneId tokenId emoteId)) (w, pool)
    = (w, pool).
Proof.
  intros Hscene.
  assert (renderEmoteLocally sceneId tokenId emoteId w = (w, None)) as Hnoop.
  { unfold renderEmoteLocally. by rewrite bool_decide_true. }
  split; [done|].
  unfold step, onSocketMessage. simpl. rewrite Hnoop. simpl.
  by rewrite app_nil_r.
Qed.

Lemma other_scene_request_has_no_effect_witness :
  scene (table ["T"]) ≠ Some "elsewhere"
  ∧ renderEmoteLocally (Some "elsewhere") "T" "heart" (table ["T"]) = (table ["T"], None).
Proof.
  assert (scene (table ["T"]) ≠ Some "elsewhere") as H by (simpl; congruence).
  split; [exact H|].
  exact (proj1 (other_scene_request_has_no_effect (table ["T"]) (Some "elsewhere")
                  "T" "heart" [] H)).
Defined.

(** C10.  A playback request whose token id names no token of the
    viewed scene, or that finds no emote list in the settings, returns
    at once and changes nothing, whether it is a direct call or arrives
    as a socket message: same world (no sprite, same registry, nothing
    logged) and no call left in flight. *)
Theorem unknown_token_or_missing_emotes_is_silent_noop
    (w : World) (sceneId : option string) (tokenId emoteId : string)
    (pool : list EmoteTask) :
  tokens w !! tokenId = None ∨ setting_emotes w = None →
  renderEmoteLocally sceneId tokenId emoteId w = (w, None)
  ∧ step (Receive (mkMessage "playEmote" sceneId tokenId emoteId)) (w, pool)
    = (w, pool).
Proof.
  intros Hmissing.
  assert (renderEmoteLocally sceneId tokenId emoteId w = (w, None)) as Hnoop.
  { unfold renderEmoteLocally. case_bool_decide; [done|].
    destruct Hmissing as [-> | ->]; [done|].
    by destruct (tokens w !! tokenId). }
  split; [done|].
  unfold step, onSocketMessage. simpl. rewrite Hnoop. simpl.
  by rewrite app_nil_r.
Qed.

Lemma unknown_token_or_missing_emotes_is_silent_noop_witness :
  renderEmoteLocally (Some "S") "ghost" "heart" (table ["T"]) = (table ["T"], None).
Proof.
  refine (proj1 (unknown_token_or_missing_emotes_is_silent_noop (table ["T"]) (Some "S")
                   "ghost" "heart" [] _)).
  left. vm_compute. reflexivity.
Defined.

(** C1.  The same request delivered twice while the first call is still
    loading its texture: both calls pass the registry check, both
    create a sprite, and two live sprites for the one (token, emote)
    pair sit among the scene's children, with two fade-ins in flight. *)
Theorem duplicate_request_while_loading_yields_two_sprites :
  let c := run [Receive heartOnT; Receive heartOnT;
                Settle 0 heartTexture; Settle 1 heartTexture] (table [], []) in
  children c.1 = [0; 1]%nat
  ∧ sprite_destroyed <$> sprites c.1 !! 0%nat = Some false
  ∧ sprite_destroyed <$> sprites c.1 !! 1%nat = Some false
  ∧ activeEmotes c.1 !! "T-heart" = Some 1%nat
  ∧ isLoading <$> c.2 = [false; false].
Proof. vm_compute. done. Qed.

(** C2.  The fade-in of a registered playback throws: the call ends in
    the catch block, which removes the registry entry but neither
    removes the sprite from the scene's children nor destroys it. *)
Theorem failed_fade_in_leaves_sprite_on_scene :
  let r := playback (Some "S") "T" "heart" [heartTexture; Rejected "boom"] (table []) in
  r.2 = None
  ∧ activeEmotes r.1 !! "T-heart" = None
  ∧ children r.1 = [0%nat]
  ∧ sprite_destroyed <$> sprites r.1 !! 0%nat = Some false
  ∧ trace r.1 = [LoadTexture "modules/tokenflipper/assets/heart.svg";
                 AddChild 0;
                 Animate [mkAnimation 0 "alpha" 1] 200 "easeOutQuad";
                 Console Error "tokenflipper | Error playing emote: boom"].
Proof. vm_compute. done. Qed.

End EmoteClaims.

Section PlaybackLifecycle.
Import Emotes Scenario.

Ltac case_animate :=
  match goal with
  | |- context [animateSprite ?sprite ?props ?duration ?w] =>
      destruct (animateSprite sprite props duration w)
  end.

Lemma resumeAll_none settlements w : resumeAll None settlements w = (w, None).
Proof. by destruct settlements. Qed.

Lemma resumeAll_cons task s rest w :
  resumeAll (Some task) (s :: rest) w
  = resumeAll (resume task s w).2 rest (resume task s w).1.
Proof. simpl. by destruct (resume task s w). Qed.

(** A resumed call that goes on keeps its key, is past loading and has
    one [await] fewer ahead. *)
Lemma resume_continues task s w w' task' :
  resume task s w = (w', Some task') →
  taskKey task' = taskKey task ∧ isLoading task' = false
  ∧ S (awaitsLeft task') = awaitsLeft task.
Proof.
  destruct task, s as [[texture|]|reason]; simpl; unfold startSprite; simpl;
    try case_animate; intros Hgo; try discriminate Hgo;
    by injection Hgo as <- <-.
Qed.

(** A resumed call that ends leaves no entry under its key, except
    when it was loading and the texture came back falsy: then it
    returns without touching the registry. *)
Lemma resume_ends task s w w' :
  resume task s w = (w', None) →
  activeEmotes w' !! taskKey task = None
  ∨ (isLoading task = true ∧ s = Fulfilled None ∧ activeEmotes w' = activeEmotes w).
Proof.
  destruct task, s as [[texture|]|reason]; simpl; unfold startSprite; simpl;
    try case_animate; intros Hend; try discriminate Hend;
    injection Hend as <-;
    first [ left; simpl; apply lookup_delete_eq | right; done ].
Qed.

(** Past loading, a call followed to its end leaves no entry. *)
Lemma resumeAll_unregisters settlements : ∀ task w w',
  isLoading task = false →
  resumeAll (Some task) settlements w = (w', None) →
  activeEmotes w' !! taskKey task = None.
Proof.
  induction settlements as [|s rest IH]; intros task w w' Hpast; simpl; [done|].
  destruct (resume task s w) as [w1 [task1|]] eqn:Hstep.
  - destruct (resume_continues _ _ _ _ _ Hstep) as (Hkey & Hpast1 & _).
    intros Hrun. rewrite <- Hkey. by eapply IH.
  - rewrite resumeAll_none. intros [= <-].
    destruct (resume_ends _ _ _ _ Hstep) as [|[Hload _]]; [done|congruence].
Qed.

(** Given a settlement for each [await] ahead, a call reaches its end. *)
Lemma resumeAll_terminates settlements : ∀ task w,
  (awaitsLeft task ≤ List.length settlements)%nat →
  (resumeAll (Some task) settlements w).2 = None.
Proof.
  induction settlements as [|s rest IH]; intros task w Hlen; simpl in *.
  - destruct task; simpl in Hlen; lia.
  - destruct (resume task s w) as [w1 [task1|]] eqn:Hstep.
    + apply IH. destruct (resume_continues _ _ _ _ _ Hstep) as (_ & _ & Hless). lia.
    + by rewrite resumeAll_none.
Qed.

(** A playback call started while no entry exists for its key, and
    followed on its own to its end through whatever its four [await]s
    settle to (normal completion, a texture that fails to load, a
    rejected stage), does end, and once it has ended the registry holds
    no entry for the key. *)
Lemma playback_on_its_own_leaves_no_entry
    (w : World) (sceneId : option string) (tokenId emoteId : string)
    (settlements : list Settlement) :
  activeEmotes w !! emoteKey tokenId emoteId = None →
  (4 ≤ List.length settlements)%nat →
  let r := playback sceneId tokenId emoteId settlements w in
  r.2 = None ∧ activeEmotes r.1 !! emoteKey tokenId emoteId = None.
Proof.
  intros Hfree Hlen. unfold playback.
  destruct (renderEmoteLocally sceneId tokenId emoteId w) as [w0 task] eqn:Hstart.
  unfold renderEmoteLocally in Hstart.
  case_bool_decide;
    [injection Hstart as <- <-; by rewrite resumeAll_none|].
  destruct (tokens w !! tokenId) as [token|];
    [|injection Hstart as <- <-; by rewrite resumeAll_none].
  destruct (findEmote emoteId _) as [emote|];
    [|injection Hstart as <- <-; by rewrite resumeAll_none].
  case_bool_decide;
    [injection Hstart as <- <-; by rewrite resumeAll_none|].
  injection Hstart as <- <-.
  set (w0 := emit _ w). set (task := AwaitTexture _ _ _ _).
  split; [by apply resumeAll_terminates|].
  destruct settlements as [|s rest]; [simpl in Hlen; lia|].
  rewrite resumeAll_cons.
  destruct (resume task s w0) as [w1 [task1|]] eqn:Hstep; cbn [fst snd].
  - destruct (resume_continues _ _ _ _ _ Hstep) as (Hkey & Hpast & Hless).
    destruct (resumeAll (Some task1) rest w1) as [w2 t2] eqn:Hrun.
    assert (t2 = None) as ->.
    { change t2 with (w2, t2).2. rewrite <- Hrun. apply resumeAll_terminates.
      simpl in *. lia. }
    simpl. change (emoteKey tokenId emoteId) with (taskKey task).
    rewrite <- Hkey. by eapply resumeAll_unregisters.
  - rewrite resumeAll_none. simpl.
    destruct (resume_ends _ _ _ _ Hstep) as [|(_ & _ & ->)]; done.
Qed.

Lemma playback_on_its_own_leaves_no_entry_on_the_table :
  let r := playback (Some "S") "T" "heart" [Fulfilled None; settled; settled; settled] (table []) in
  r.2 = None ∧ activeEmotes r.1 !! emoteKey "T" "heart" = None.
Proof.
  apply (playback_on_its_own_leaves_no_entry (table []) (Some "S") "T" "heart"
           [Fulfilled None; settled; settled; settled]).
  - vm_compute. reflexivity.
  - simpl. lia.
Defined.

End PlaybackLifecycle.

Section PlaybackSequence.
Import Emotes Scenario.

(** With a positive duration [animateSprite] hands the animation to the
    host. *)
Lemma animateSprite_delegates sprite properties duration w :
  Qle_bool duration 0 = false →
  animateSprite sprite properties duration w
  = (emit (Animate (map (λ kv, mkAnimation sprite kv.1 kv.2) properties)
             duration "easeOutQuad") w,
     map (λ kv, mkAnimation sprite kv.1 kv.2) properties).
Proof. intros Hpos. unfold animateSprite. by rewrite Hpos. Qed.

(** C4.  An emote with fadeIn 200, duration 1500 and fadeOut 200 played
    on a token of the viewed scene.  Following the call settlement by
    settlement shows each stage starting only when the one before has
    settled: while the texture loads nothing is on the scene; once it
    is loaded the sprite is added with opacity 0 and the fade to 1 over
    200 ms is started; when that has completed (opacity 1) the 1500 ms
    hold is started; when the hold is over the fade to 0 over 200 ms is
    started, the sprite still on the scene; and only when that has
    completed (opacity 0) is the sprite removed and destroyed, which
    ends the call. *)
Theorem playback_stages_run_in_order
    (w : World) (sceneId tokenId emoteId : string) (token : Token) (emote : Emote)
    (texture : string) (v1 v2 v3 : option string) :
  scene w = Some sceneId →
  tokens w !! tokenId = Some token →
  findEmote emoteId (default [] (setting_emotes w)) = Some emote →
  emote_fadeIn emote = JNumber 200 →
  emote_duration emote = JNumber 1500 →
  emote_fadeOut emote = JNumber 200 →
  activeEmotes w !! emoteKey tokenId emoteId = None →
  let sprite := nextSprite w in
  let play := λ settlements, playback (Some sceneId) tokenId emoteId settlements w in
  let loaded := Fulfilled (Some texture) in
  let loading := [LoadTexture (emote_image emote)] in
  let fadeIn := [AddChild sprite;
                 Animate [mkAnimation sprite "alpha" 1] 200 "easeOutQuad"] in
  let hold := [SetTimeout 1500] in
  let fadeOut := [Animate [mkAnimation sprite "alpha" 0] 200 "easeOutQuad"] in
  let removal := [RemoveChild sprite; Destroy sprite] in
  let alpha := λ w', sprite_alpha <$> sprites w' !! sprite in
  (trace (play []).1 = trace w ++ loading
   ∧ children (play []).1 = children w)
  ∧ (trace (play [loaded]).1 = trace w ++ loading ++ fadeIn
     ∧ children (play [loaded]).1 = children w ++ [sprite]
     ∧ alpha (play [loaded]).1 = Some 0%Q)
  ∧ (trace (play [loaded; Fulfilled v1]).1 = trace w ++ loading ++ fadeIn ++ hold
     ∧ children (play [loaded; Fulfilled v1]).1 = children w ++ [sprite]
     ∧ alpha (play [loaded; Fulfilled v1]).1 = Some 1%Q)
  ∧ (trace (play [loaded; Fulfilled v1; Fulfilled v2]).1
       = trace w ++ loading ++ fadeIn ++ hold ++ fadeOut
     ∧ children (play [loaded; Fulfilled v1; Fulfilled v2]).1 = children w ++ [sprite]
     ∧ alpha (play [loaded; Fulfilled v1; Fulfilled v2]).1 = Some 1%Q)
  ∧ (trace (play [loaded; Fulfilled v1; Fulfilled v2; Fulfilled v3]).1
       = trace w ++ loading ++ fadeIn ++ hold ++ fadeOut ++ removal
     ∧ (sprite ∉ children (play [loaded; Fulfilled v1; Fulfilled v2; Fulfilled v3]).1)
     ∧ alpha (play [loaded; Fulfilled v1; Fulfilled v2; Fulfilled v3]).1 = Some 0%Q
     ∧ (play [loaded; Fulfilled v1; Fulfilled v2; Fulfilled v3]).2 = None).
Proof.
  intros Hscene Htoken Hemote HfadeIn Hduration HfadeOut Hfree.
  intros sprite play loaded loading fadeIn hold fadeOut removal alpha.
  assert (renderEmoteLocally (Some sceneId) tokenId emoteId w
          = (emit (LoadTexture (emote_image emote)) w,
             Some (AwaitTexture tokenId token emote (emoteKey tokenId emoteId))))
    as Hstart.
  { unfold renderEmoteLocally. rewrite Hscene, Htoken, Hemote, Hfree.
    rewrite bool_decide_false; [|naive_solver].
    rewrite bool_decide_false; [done|]. by intros []. }
  subst play alpha loaded. unfold playback. rewrite Hstart.
  cbn [resumeAll resume]. unfold startSprite. cbn [emit tokens].
  rewrite Htoken.
  repeat first [ rewrite HfadeIn | rewrite Hduration | rewrite HfadeOut
               | rewrite animateSprite_delegates by reflexivity
               | progress cbn -[MODULE_ID animateSprite] ].
  subst sprite loading fadeIn hold fadeOut removal.
  rewrite <- !(assoc_L (++)). cbn [app].
  rewrite ?lookup_alter_eq, ?lookup_insert_eq.
  repeat split; try done.
  rewrite list_elem_of_filter. by intros [? _].
Qed.

End PlaybackSequence.

Section PlaybackDefaults.
Import Emotes Scenario.

Lemma playback_stages_run_in_order_witness :
  trace (playback (Some "S") "T" "heart" [heartTexture; settled; settled; settled] (table [])).1
  = [LoadTexture "modules/tokenflipper/assets/heart.svg";
     AddChild 0;
     Animate [mkAnimation 0 "alpha" 1] 200 "easeOutQuad";
     SetTimeout 1500;
     Animate [mkAnimation 0 "alpha" 0] 200 "easeOutQuad";
     RemoveChild 0;
     Destroy 0].
Proof.
  refine (proj1 (proj2 (proj2 (proj2 (proj2
    (playback_stages_run_in_order (table []) "S" "T" "heart" tokenT
       (mkEmote "heart" "Heart" "modules/tokenflipper/assets/heart.svg"
          (JNumber 0) (JNumber (-20)) (JNumber (3 # 4))
          (JNumber 1500) (JNumber 200) (JNumber 200))
       "heart.svg" None None None _ _ _ _ _ _ _)))))); reflexivity.
Defined.

Lemma js_or_default v d : zeroOrMissing v = true → js_or v d = d.
Proof. destruct v as [| |q]; simpl; try done. by intros ->. Qed.

(** C9.  A field of the emote that is stored as 0 or is absent plays
    with the built-in default: the sprite is created with scale 1 when
    [scale] is, and at offset 0 when [offsetX] / [offsetY] are; the
    fade-in handed to the host lasts 200 ms when [fadeIn] is; the hold
    is a 1500 ms timer when [duration] is; the fade-out handed to the
    host lasts 200 ms when [fadeOut] is. *)
Theorem zero_or_missing_fields_play_with_defaults
    (w : World) (tokenId : string) (token : Token) (emote : Emote)
    (key texture : string) (sprite : nat) (delegated : list Animation)
    (v : option string) :
  let created :=
    (resume (AwaitTexture tokenId token emote key) (Fulfilled (Some texture)) w).1 in
  let placed := default token (tokens w !! tokenId) in
  (zeroOrMissing (emote_scale emote) = true →
     sprite_scale <$> sprites created !! nextSprite w = Some 1%Q)
  ∧ (zeroOrMissing (emote_offsetX emote) = true →
     (λ s, (sprite_position s).1) <$> sprites created !! nextSprite w
     = Some (token_x placed + token_w placed / 2 + 0)%Q)
  ∧ (zeroOrMissing (emote_offsetY emote) = true →
     (λ s, (sprite_position s).2) <$> sprites created !! nextSprite w
     = Some (token_y placed + 0)%Q)
  ∧ (zeroOrMissing (emote_fadeIn emote) = true →
     trace created
     = trace w ++ [AddChild (nextSprite w);
                   Animate [mkAnimation (nextSprite w) "alpha" 1] 200 "easeOutQuad"])
  ∧ (zeroOrMissing (emote_duration emote) = true →
     trace (resume (AwaitFadeIn sprite delegated emote key) (Fulfilled v) w).1
     = trace w ++ [SetTimeout 1500])
  ∧ (zeroOrMissing (emote_fadeOut emote) = true →
     trace (resume (AwaitHold sprite emote key) (Fulfilled v) w).1
     = trace w ++ [Animate [mkAnimation sprite "alpha" 0] 200 "easeOutQuad"]).
Proof.
  intros created placed. subst created placed.
  cbn [resume]. unfold startSprite.
  repeat split; intros Hfield.
  - rewrite (js_or_default _ _ Hfield). unfold animateSprite.
    destruct (Qle_bool _ 0); cbn -[MODULE_ID];
      rewrite ?lookup_alter_eq, lookup_insert_eq; done.
  - rewrite (js_or_default _ _ Hfield). unfold animateSprite.
    destruct (Qle_bool _ 0); cbn -[MODULE_ID];
      rewrite ?lookup_alter_eq, lookup_insert_eq; done.
  - rewrite (js_or_default _ _ Hfield). unfold animateSprite.
    destruct (Qle_bool _ 0); cbn -[MODULE_ID];
      rewrite ?lookup_alter_eq, lookup_insert_eq; done.
  - rewrite (js_or_default _ _ Hfield). cbn -[MODULE_ID animateSprite].
    rewrite animateSprite_delegates by reflexivity.
    cbn -[MODULE_ID]. by rewrite <- (assoc_L (++)).
  - by rewrite (js_or_default _ _ Hfield).
  - rewrite (js_or_default _ _ Hfield).
    by rewrite animateSprite_delegates by reflexivity.
Qed.

End PlaybackDefaults.

Section PlaybackDefaultsWitness.
Import Emotes Scenario.

Lemma zero_or_missing_fields_play_with_defaults_witness :
  zeroOrMissing (emote_scale blank) = true
  ∧ zeroOrMissing (emote_duration blank) = true
  ∧ sprite_scale <$>
      sprites (resume (AwaitTexture "T" tokenT blank "T-blank")
                 (Fulfilled (Some "blank.svg")) (table [])).1 !! 0%nat = Some 1%Q
  ∧ trace (resume (AwaitFadeIn 0 [] blank "T-blank") (Fulfilled None) (table [])).1
    = [SetTimeout 1500].
Proof.
  pose proof (zero_or_missing_fields_play_with_defaults (table []) "T" tokenT blank
                "T-blank" "blank.svg" 0 [] None) as (Hscale & _ & _ & _ & Hhold & _).
  split; [reflexivity|]. split; [reflexivity|].
  split; [exact (Hscale eq_refl) | exact (Hhold eq_refl)].
Defined.

End PlaybackDefaultsWitness.

(** * Properties of flip and bounce *)

Section FlipFacts.
Import Flipper Scenario.

Lemma Qmult_neg1_involutive (s : Q) : (s * -1 * -1)%Q = s.
Proof.
  destruct s as [n d]. unfold Qmult. simpl. f_equal; [lia|].
  by rewrite !Pos.mul_1_r.
Qed.

Lemma Qmult_neg1_opp (s : Q) : (s * -1)%Q = (- s)%Q.
Proof.
  destruct s as [n d]. unfold Qmult, Qopp. simpl. f_equal; [lia|].
  by rewrite Pos.mul_1_r.
Qed.

Lemma getProperty_setProperty p v t : getProperty p (setProperty p v t) = v.
Proof. by destruct p. Qed.

Lemma documentUpdated_lookup tokenId p v w j :
  tokens (documentUpdated tokenId p v w) !! j
  = if decide (tokenId = j)
    then setProperty p v <$> tokens w !! tokenId else tokens w !! j.
Proof. unfold documentUpdated. simpl. apply lookup_alter. Qed.

Lemma flipLoop_controlled p d rest : ∀ host w,
  controlled (flipLoop p d rest host w).1 = controlled w.
Proof.
  induction rest as [|id rest IH]; intros host w; simpl; [done|].
  destruct (tokens w !! id) as [tok|]; [|apply IH].
  destruct (token_isOwner tok); simpl; [|by rewrite IH].
  destruct (isAnimating tok); [apply IH|].
  destruct host as [|[v|r] host]; simpl; try done.
  by rewrite IH.
Qed.

(** What the flip loop does to one token, when the host fulfils every
    update: a token outside the selection is untouched, and a selected
    token that is owned and idle has its property multiplied by -1. *)
Lemma flipLoop_token p d tokenId rest : ∀ host w,
  forallb isFulfilled host = true →
  (List.length rest ≤ List.length host)%nat →
  (flipLoop p d rest host w).2 = Returned
  ∧ (tokenId ∉ rest →
     tokens (flipLoop p d rest host w).1 !! tokenId = tokens w !! tokenId)
  ∧ (NoDup rest → tokenId ∈ rest →
     ∀ token, tokens w !! tokenId = Some token →
       token_isOwner token = true → isAnimating token = false →
       tokens (flipLoop p d rest host w).1 !! tokenId
       = Some (setProperty p (getProperty p token * -1)%Q token)).
Proof.
  induction rest as [|id rest IH]; intros host w Hhost Hlen.
  { simpl. split; [done|]. split; [done|]. intros _ Hin. by apply elem_of_nil in Hin. }
  assert (∀ w0, tokens w0 = tokens w →
            (flipLoop p d rest host w0).2 = Returned
            ∧ (tokenId ∉ id :: rest →
               tokens (flipLoop p d rest host w0).1 !! tokenId = tokens w !! tokenId)
            ∧ (NoDup (id :: rest) → tokenId ∈ id :: rest → tokenId ≠ id →
               ∀ token, tokens w !! tokenId = Some token →
                 token_isOwner token = true → isAnimating token = false →
                 tokens (flipLoop p d rest host w0).1 !! tokenId
                 = Some (setProperty p (getProperty p token * -1)%Q token)))
    as Hskip.
  { intros w0 Hsame.
    destruct (IH host w0 Hhost) as (Hret & Hout & Hin); [simpl in Hlen; lia|].
    rewrite <- Hsame. split; [done|]. split.
    - intros [_ ?]%not_elem_of_cons. by apply Hout.
    - intros [_ ?]%NoDup_cons [?|?]%elem_of_cons Hne; [done|]. by apply Hin. }
  simpl.
  destruct (tokens w !! id) as [tok|] eqn:Hlookup.
  2:{ destruct (Hskip w eq_refl) as (Hret & Hout & Hin).
      split; [done|]. split; [done|].
      intros Hnd Hel token Htoken. apply Hin; try done. congruence. }
  destruct (token_isOwner tok) eqn:Howner; simpl.
  2:{ destruct (Hskip (emit (Notify Warn ("You don't have permission to flip "
                               +:+ token_name tok +:+ ".")) w) eq_refl)
        as (Hret & Hout & Hin).
      split; [done|]. split; [done|].
      intros Hnd Hel token Htoken Hown. apply Hin; try done. congruence. }
  destruct (isAnimating tok) eqn:Hanim.
  { destruct (Hskip w eq_refl) as (Hret & Hout & Hin).
    split; [done|]. split; [done|].
    intros Hnd Hel token Htoken Hown Hidle. apply Hin; try done. congruence. }
  destruct host as [|[v|r] host]; [simpl in Hlen; lia| |done].
  simpl in Hhost, Hlen.
  set (w2 := documentUpdated id p _ _).
  destruct (IH host w2 Hhost) as (Hret & Hout & Hin); [lia|].
  split; [done|]. split.
  - intros [Hne ?]%not_elem_of_cons. rewrite Hout by done.
    subst w2. rewrite documentUpdated_lookup. by rewrite decide_False.
  - intros [Hfresh Hnd]%NoDup_cons Hel token Htoken Hown Hidle.
    destruct (decide (tokenId = id)) as [->|Hne].
    + rewrite Hout by done. subst w2. rewrite documentUpdated_lookup.
      rewrite decide_True by done. simpl. rewrite Hlookup in *.
      by injection Htoken as ->.
    + apply elem_of_cons in Hel as [?|Hel]; [done|].
      apply Hin; try done. subst w2. rewrite documentUpdated_lookup.
      by rewrite decide_False.
Qed.

End FlipFacts.

Section FlipInvolution.
Import Flipper Scenario.

Lemma hostAnimations_lookup contexts w tokenId :
  tokens (hostAnimations contexts w) !! tokenId
  = withContexts (contexts tokenId) <$> tokens w !! tokenId.
Proof.
  unfold hostAnimations. simpl. rewrite map_lookup_imap.
  by destruct (tokens w !! tokenId).
Qed.

(** C6.  A selected token that is owned and idle, flipped in a
    direction: one flip multiplies the scale factor of that direction
    by -1 (its opposite), and a second flip, made when the host has the
    token idle again, brings the factor back to its original value.
    Horizontal flips act on [texture.scaleX], vertical ones on
    [texture.scaleY]. *)
Theorem flip_twice_restores_scale
    (direction : string) (w : World) (tokenId : string) (token : Token)
    (host1 host2 : list Settlement) (contexts : string → option nat) :
  NoDup (controlled w) →
  tokenId ∈ controlled w →
  tokens w !! tokenId = Some token →
  token_isOwner token = true →
  isAnimating token = false →
  forallb isFulfilled host1 = true →
  (List.length (controlled w) ≤ List.length host1)%nat →
  forallb isFulfilled host2 = true →
  (List.length (controlled w) ≤ List.length host2)%nat →
  isAnimating (withContexts (contexts tokenId) token) = false →
  let p := flipProperty direction in
  let s := getProperty p token in
  let w1 := (flipSelectedTokens direction host1 w).1 in
  let w2 := (flipSelectedTokens direction host2 (hostAnimations contexts w1)).1 in
  getProperty p <$> tokens w1 !! tokenId = Some (s * -1)%Q
  ∧ (s * -1)%Q = (- s)%Q
  ∧ getProperty p <$> tokens w2 !! tokenId = Some s
  ∧ flipProperty "horizontal" = TextureScaleX
  ∧ flipProperty "vertical" = TextureScaleY.
Proof.
  intros Hnd Hin Htoken Hown Hidle Hhost1 Hlen1 Hhost2 Hlen2 Hidle2 p s w1 w2.
  assert (controlled w1 = controlled w) as Hsel1.
  { subst w1. unfold flipSelectedTokens.
    destruct (controlled w) eqn:Hsel; [done|]. rewrite <- Hsel.
    apply flipLoop_controlled. }
  assert (tokens w1 !! tokenId = Some (setProperty p (s * -1)%Q token)) as Hfirst.
  { subst w1. unfold flipSelectedTokens.
    destruct (controlled w) eqn:Hsel; [by apply elem_of_nil in Hin|].
    rewrite <- Hsel in *.
    by apply (flipLoop_token p (setting_flipDuration w) tokenId (controlled w)
                host1 w Hhost1 Hlen1). }
  assert (tokens w2 !! tokenId
          = Some (setProperty p (s * -1 * -1)%Q
                    (withContexts (contexts tokenId) (setProperty p (s * -1)%Q token))))
    as Hsecond.
  { subst w2. unfold flipSelectedTokens.
    change (controlled (hostAnimations contexts w1)) with (controlled w1).
    rewrite Hsel1.
    destruct (controlled w) eqn:Hsel; [by apply elem_of_nil in Hin|].
    rewrite <- Hsel in *.
    pose proof (flipLoop_token p (setting_flipDuration (hostAnimations contexts w1))
                  tokenId (controlled w) host2 (hostAnimations contexts w1)
                  Hhost2 Hlen2) as (_ & _ & Hflip).
    etrans.
    { apply (Hflip Hnd Hin
               (withContexts (contexts tokenId) (setProperty p (s * -1)%Q token))).
      - by rewrite hostAnimations_lookup, Hfirst.
      - by destruct p.
      - by destruct p. }
    f_equal. f_equal. by destruct p. }
  rewrite Hfirst, Hsecond. simpl.
  rewrite !getProperty_setProperty, Qmult_neg1_involutive.
  repeat split; try done. apply Qmult_neg1_opp.
Qed.

Lemma flip_twice_restores_scale_witness :
  doc_scaleX <$>
    tokens (flipSelectedTokens "horizontal" [settled; settled]
              (hostAnimations (λ _, Some 0%nat)
                 (flipSelectedTokens "horizontal" [settled; settled]
                    (table ["N"; "B"])).1)).1 !! "B"
  = Some (-1)%Q.
Proof.
  refine (proj1 (proj2 (proj2
    (flip_twice_restores_scale "horizontal" (table ["N"; "B"]) "B" tokenB
       [settled; settled] [settled; settled] (λ _, Some 0%nat) _ _ _ _ _ _ _ _ _ _)))).
  - simpl. apply NoDup_cons. split; [|apply NoDup_singleton].
    intros [Heq|Hin]%elem_of_cons; [discriminate|]. by apply elem_of_nil in Hin.
  - simpl. apply elem_of_cons. right. apply elem_of_cons. by left.
  - vm_compute. reflexivity.
  - reflexivity.
  - reflexivity.
  - reflexivity.
  - simpl. lia.
  - reflexivity.
  - simpl. lia.
  - reflexivity.
Defined.

End FlipInvolution.

Section PermissionFacts.
Import Flipper.

Lemma notifications_app l1 l2 :
  notifications (l1 ++ l2) = notifications l1 ++ notifications l2.
Proof. apply List.filter_app. Qed.

Lemma updateTargets_app l1 l2 :
  updateTargets (l1 ++ l2) = updateTargets l1 ++ updateTargets l2.
Proof. apply omap_app. Qed.

Lemma emitted_app l1 l2 : emitted (l1 ++ l2) = emitted l1 ++ emitted l2.
Proof. apply omap_app. Qed.





End PermissionFacts.

Section BounceFacts.
Import Flipper.

Lemma updatesOf_app tokenId l1 l2 :
  updatesOf tokenId (l1 ++ l2) = updatesOf tokenId l1 ++ updatesOf tokenId l2.
Proof. apply List.filter_app. Qed.

Lemma bouncesOf_app tokenId l1 l2 :
  bouncesOf tokenId (l1 ++ l2) = bouncesOf tokenId l1 ++ bouncesOf tokenId l2.
Proof. apply List.filter_app. Qed.

Lemma updatesOf_bounceUp tokenId id y h d :
  updatesOf tokenId [bounceUp id y h d]
  = if decide (id = tokenId) then [bounceUp id y h d] else [].
Proof.
  simpl. destruct (decide (id = tokenId));
    [by rewrite bool_decide_true | by rewrite bool_decide_false].
Qed.

Lemma updatesOf_bounceDown tokenId id y d :
  updatesOf tokenId [bounceDown id y d]
  = if decide (id = tokenId) then [bounceDown id y d] else [].
Proof.
  simpl. destruct (decide (id = tokenId));
    [by rewrite bool_decide_true | by rewrite bool_decide_false].
Qed.

Lemma bouncesOf_one tokenId task :
  bouncesOf tokenId [task]
  = if decide (bounce_token task = tokenId) then [task] else [].
Proof.
  simpl. destruct (decide (bounce_token task = tokenId));
    [by rewrite bool_decide_true | by rewrite bool_decide_false].
Qed.

(** [doBounceAnimation] on a token of the scene: with a positive count
    the first update is requested and the call is suspended on it;
    otherwise the call returns at once. *)
Lemma doBounceAnimation_start tokenId token h d c w :
  tokens w !! tokenId = Some token →
  doBounceAnimation tokenId h d c w
  = if (0 <? c)%Z
    then (emit (bounceUp tokenId (doc_y token) h d) w,
          Some (mkBounce tokenId (doc_y token) h d c 0 Up))
    else (w, None).
Proof. intros Hlookup. unfold doBounceAnimation, bounceIteration. by rewrite Hlookup. Qed.

(** What the loop of [bounceSelectedTokens] does for one token: it
    leaves the documents alone; for a token outside the selection it
    requests nothing and starts nothing; for a selected token that is
    owned and idle it starts one bounce around the token's own y. *)
Lemma bounceLoop_token h d c w0 tokenId rest : ∀ w,
  tokens w = tokens w0 →
  tokens (bounceLoop h d c rest w).1 = tokens w0
  ∧ (tokenId ∉ rest →
     updatesOf tokenId (trace (bounceLoop h d c rest w).1) = updatesOf tokenId (trace w)
     ∧ bouncesOf tokenId (bounceLoop h d c rest w).2 = [])
  ∧ (NoDup rest → tokenId ∈ rest →
     ∀ token, tokens w0 !! tokenId = Some token →
       token_isOwner token = true → isAnimating token = false →
       updatesOf tokenId (trace (bounceLoop h d c rest w).1)
       = updatesOf tokenId (trace w)
         ++ (if (0 <? c)%Z then [bounceUp tokenId (doc_y token) h d] else [])
       ∧ bouncesOf tokenId (bounceLoop h d c rest w).2
         = if (0 <? c)%Z then [mkBounce tokenId (doc_y token) h d c 0 Up] else []).
Proof.
  induction rest as [|id rest IH]; intros w Hsame.
  { simpl. split; [done|]. split; [done|]. intros _ Hin. by apply elem_of_nil in Hin. }
  assert (∀ w1, tokens w1 = tokens w0 →
            updatesOf tokenId (trace w1) = updatesOf tokenId (trace w) →
            tokens (bounceLoop h d c rest w1).1 = tokens w0
            ∧ (tokenId ∉ id :: rest →
               updatesOf tokenId (trace (bounceLoop h d c rest w1).1)
               = updatesOf tokenId (trace w)
               ∧ bouncesOf tokenId (bounceLoop h d c rest w1).2 = [])
            ∧ (NoDup (id :: rest) → tokenId ∈ id :: rest → tokenId ≠ id →
               ∀ token, tokens w0 !! tokenId = Some token →
                 token_isOwner token = true → isAnimating token = false →
                 updatesOf tokenId (trace (bounceLoop h d c rest w1).1)
                 = updatesOf tokenId (trace w)
                   ++ (if (0 <? c)%Z then [bounceUp tokenId (doc_y token) h d] else [])
                 ∧ bouncesOf tokenId (bounceLoop h d c rest w1).2
                   = if (0 <? c)%Z
                     then [mkBounce tokenId (doc_y token) h d c 0 Up] else []))
    as Hskip.
  { intros w1 Hsame1 Htrace1.
    destruct (IH w1 Hsame1) as (Htok & Hout & Hin).
    rewrite <- Htrace1. split; [done|]. split.
    - intros [_ ?]%not_elem_of_cons. by apply Hout.
    - intros [_ ?]%NoDup_cons [?|?]%elem_of_cons Hne; [done|]. by apply Hin. }
  cbn [bounceLoop]. rewrite Hsame.
  destruct (tokens w0 !! id) as [tok|] eqn:Hlookup.
  2:{ destruct (Hskip w Hsame eq_refl) as (Htok & Hout & Hin).
      split; [done|]. split; [done|].
      intros Hnd Hel token Htoken. apply Hin; try done. congruence. }
  destruct (token_isOwner tok) eqn:Howner; cbn [negb].
  2:{ match goal with
      | |- context [bounceLoop h d c rest ?w1] =>
          destruct (Hskip w1) as (Htok & Hout & Hin)
      end.
      { done. }
      { rewrite emit_trace, updatesOf_app. simpl. by rewrite app_nil_r. }
      split; [done|]. split; [done|].
      intros Hnd Hel token Htoken Hown. apply Hin; try done. congruence. }
  destruct (isAnimating tok) eqn:Hanim.
  { destruct (Hskip w Hsame eq_refl) as (Htok & Hout & Hin).
    split; [done|]. split; [done|].
    intros Hnd Hel token Htoken Hown Hidle. apply Hin; try done. congruence. }
  rewrite (doBounceAnimation_start id tok) by (by rewrite Hsame).
  destruct (0 <? c)%Z eqn:Hcount.
  2:{ destruct (bounceLoop h d c rest w) as [w2 tasks] eqn:Hloop.
      destruct (IH w Hsame) as (Htok & Hout & Hin). rewrite Hloop in *.
      cbn [fst snd spawned app] in *.
      split; [done|]. split.
      - intros [_ ?]%not_elem_of_cons. by apply Hout.
      - intros [Hfresh Hnd]%NoDup_cons Hel token Htoken Hown Hidle.
        destruct (decide (tokenId = id)) as [->|Hne].
        + rewrite app_nil_r. by apply Hout.
        + apply elem_of_cons in Hel as [?|Hel]; [done|].
          by destruct (Hin Hnd Hel token Htoken Hown Hidle) as [Hu Hb]. }
  destruct (bounceLoop h d c rest (emit (bounceUp id (doc_y tok) h d) w))
    as [w2 tasks] eqn:Hloop.
  destruct (IH (emit (bounceUp id (doc_y tok) h d) w) Hsame) as (Htok & Hout & Hin).
  rewrite Hloop in *. cbn [fst snd spawned] in *.
  rewrite bouncesOf_app, bouncesOf_one. cbn [bounce_token].
  split; [done|]. split.
  - intros [Hne Hnotin]%not_elem_of_cons.
    destruct (Hout Hnotin) as [Hu Hb].
    rewrite emit_trace, updatesOf_app, updatesOf_bounceUp in Hu.
    rewrite decide_False in Hu by done. rewrite app_nil_r in Hu.
    rewrite decide_False by done. by rewrite Hu, Hb.
  - intros [Hfresh Hnd]%NoDup_cons Hel token Htoken Hown Hidle.
    destruct (decide (tokenId = id)) as [->|Hne].
    + destruct (Hout Hfresh) as [Hu Hb].
      rewrite emit_trace, updatesOf_app, updatesOf_bounceUp in Hu.
      rewrite decide_True in Hu by done. rewrite decide_True by done.
      rewrite Hlookup in Htoken. injection Htoken as <-.
      by rewrite Hu, Hb.
    + apply elem_of_cons in Hel as [?|Hel]; [done|].
      destruct (Hin Hnd Hel token Htoken Hown Hidle) as [Hu Hb].
      rewrite emit_trace, updatesOf_app, updatesOf_bounceUp in Hu.
      rewrite decide_False in Hu by done. rewrite app_nil_r in Hu.
      rewrite decide_False by done. by rewrite Hu, Hb.
Qed.

End BounceFacts.

Section BouncePool.
Import Flipper.

Lemma cycles_S tokenId y0 h d n :
  cycles tokenId y0 h d (S n)
  = cycles tokenId y0 h d n ++ [bounceUp tokenId y0 h d; bounceDown tokenId y0 d].
Proof.
  unfold cycles. cbn [repeat]. by rewrite List.repeat_cons, concat_app.
Qed.

(** Settling the call at position [i] resumes it in place. *)
Lemma settle_split i s w pool task :
  pool !! i = Some task →
  ∃ pre post,
    pool = pre ++ [task] ++ post
    ∧ settle i s (w, pool)
      = ((resume task s w).1, pre ++ spawned (resume task s w).2 ++ post).
Proof.
  intros Hi. exists (take i pool), (drop (S i) pool). split.
  { symmetry. apply take_drop_middle, Hi. }
  unfold settle. rewrite Hi. destruct (resume task s w) as [w' [task'|]]; simpl.
  - f_equal. apply insert_take_drop. by eapply lookup_lt_Some.
  - f_equal. apply delete_take_drop.
Qed.

(** Resuming the bounce of one token requests nothing for another
    token, leaves the other token's document alone and leaves no bounce
    for it. *)
Lemma resume_other tokenId task v w :
  bounce_token task ≠ tokenId →
  updatesOf tokenId (trace (resume task (Fulfilled v) w).1) = updatesOf tokenId (trace w)
  ∧ tokens (resume task (Fulfilled v) w).1 !! tokenId = tokens w !! tokenId
  ∧ bouncesOf tokenId (spawned (resume task (Fulfilled v) w).2) = [].
Proof.
  intros Hne. unfold resume. destruct (bounce_phase task).
  - cbn [fst snd spawned]. rewrite emit_trace, updatesOf_app, updatesOf_bounceDown.
    rewrite decide_False by done. rewrite app_nil_r.
    cbn [emit tokens]. rewrite documentUpdated_lookup, decide_False by done.
    rewrite bouncesOf_one. cbn [bounce_token]. by rewrite decide_False.
  - unfold bounceIteration. destruct (_ <? _)%Z; cbn [fst snd spawned].
    + rewrite emit_trace, updatesOf_app, updatesOf_bounceUp.
      rewrite decide_False by done. rewrite app_nil_r.
      cbn [emit tokens]. rewrite documentUpdated_lookup, decide_False by done.
      rewrite bouncesOf_one. cbn [bounce_token]. by rewrite decide_False.
    + by rewrite documentUpdated_lookup, decide_False.
Qed.

End BouncePool.

Section BounceProgress.
Import Flipper.

(** The progress of one token's bounce survives the settlement of any
    pending update, its own or another token's. *)
Lemma bounceProgress_settle tokenId y0 h d count before i v c :
  bounceProgress tokenId y0 h d count before c →
  bounceProgress tokenId y0 h d count before (settle i (Fulfilled v) c).
Proof.
  destruct c as [w pool]. intros [Hsome Hprog].
  destruct (pool !! i) as [task|] eqn:Hi; [|unfold settle; by rewrite Hi].
  destruct (settle_split i (Fulfilled v) w pool task Hi) as (pre & post & -> & ->).
  unfold bounceProgress. cbn [fst snd] in *.
  rewrite !bouncesOf_app in *. rewrite bouncesOf_one in Hprog.
  destruct (decide (bounce_token task = tokenId)) as [Hown|Hother].
  2:{ destruct (resume_other tokenId task v w Hother) as (-> & -> & ->). done. }
  destruct (bouncesOf tokenId pre) as [|a [|a' pre']];
    [|by destruct (bouncesOf tokenId post)|done].
  destruct (bouncesOf tokenId post) as [|b post']; [|done].
  cbn [app] in *. destruct Hprog as (Htask & Hrange & Hupd).
  destruct task as [tk oy th td tc ti ph]. cbn [bounce_i bounce_phase] in *.
  injection Htask as -> -> -> -> ->. clear Hown.
  unfold requestedInIteration in Hupd. cbn [bounce_phase bounce_token
    bounce_originalY bounce_height bounce_duration] in Hupd.
  destruct Hsome as [token Htoken].
  unfold resume. cbn [bounce_phase bounce_token bounce_originalY bounce_height
    bounce_duration bounce_count bounce_i].
  destruct ph.
  - cbn [fst snd spawned app]. rewrite bouncesOf_one. cbn [bounce_token].
    rewrite decide_True by done. cbn [emit tokens].
    rewrite documentUpdated_lookup, decide_True, Htoken by done.
    split; [by eexists|]. split; [done|]. split; [done|].
    rewrite emit_trace, updatesOf_app, updatesOf_bounceDown, decide_True by done.
    cbn [documentUpdated with_tokens trace].
    rewrite Hupd. unfold requestedInIteration. cbn [bounce_phase bounce_token
      bounce_originalY bounce_height bounce_duration bounce_i].
    by rewrite <- !(assoc_L (++)).
  - unfold bounceIteration. destruct (ti + 1 <? count)%Z eqn:Hmore.
    + apply Z.ltb_lt in Hmore.
      cbn [fst snd spawned app]. rewrite bouncesOf_one. cbn [bounce_token].
      rewrite decide_True by done. cbn [emit tokens].
      rewrite documentUpdated_lookup, decide_True, Htoken by done.
      split; [by eexists|]. cbn [app bounce_i bounce_phase].
      split; [done|]. split; [lia|].
      rewrite emit_trace, updatesOf_app, updatesOf_bounceUp, decide_True by done.
      cbn [documentUpdated with_tokens trace]. rewrite Hupd.
      unfold requestedInIteration. cbn [bounce_phase bounce_token
        bounce_originalY bounce_height bounce_duration bounce_i].
      replace (Z.to_nat (ti + 1)) with (S (Z.to_nat ti)) by lia.
      rewrite cycles_S. by rewrite <- !(assoc_L (++)).
    + apply Z.ltb_ge in Hmore.
      cbn [fst snd spawned app]. change (bouncesOf tokenId []) with (@nil BounceTask).
      rewrite documentUpdated_lookup, decide_True, Htoken by done.
      split; [by eexists|]. split; [|done].
      cbn [documentUpdated with_tokens trace]. rewrite Hupd.
      replace (Z.to_nat count) with (S (Z.to_nat ti)) by lia.
      by rewrite cycles_S.
Qed.

Lemma bounceProgress_settleAll tokenId y0 h d count before schedule : ∀ c,
  bounceProgress tokenId y0 h d count before c →
  bounceProgress tokenId y0 h d count before (settleAll schedule c).
Proof.
  induction schedule as [|i schedule IH]; intros c Hc; [done|].
  apply IH. by apply bounceProgress_settle.
Qed.

(** Fulfilling the update awaited by the first bounce in flight takes
    one await off the total. *)
Lemma settle_first_counts_down v w task pool :
  S (awaitsAheadAll (settle 0 (Fulfilled v) (w, task :: pool)).2)
  = awaitsAheadAll (task :: pool).
Proof.
  unfold settle. cbn [lookup list_lookup]. unfold resume.
  destruct task as [tk oy th td tc ti ph]. cbn [bounce_phase bounce_token
    bounce_originalY bounce_height bounce_duration bounce_count bounce_i].
  destruct ph.
  - unfold awaitsAheadAll, awaitsAhead. simpl. lia.
  - unfold bounceIteration. destruct (ti + 1 <? tc)%Z eqn:Hmore.
    + apply Z.ltb_lt in Hmore. unfold awaitsAheadAll, awaitsAhead. simpl.
      replace (Z.to_nat (tc - ti - 1)) with (S (Z.to_nat (tc - (ti + 1) - 1))) by lia.
      lia.
    + apply Z.ltb_ge in Hmore. unfold awaitsAheadAll, awaitsAhead. simpl.
      replace (Z.to_nat (tc - ti - 1)) with 0%nat by lia. lia.
Qed.

(** When the host keeps fulfilling the updates, every bounce ends. *)
Lemma bounces_drain n : ∀ w pool,
  (awaitsAheadAll pool ≤ n)%nat →
  (settleAll (repeat 0%nat n) (w, pool)).2 = [].
Proof.
  induction n as [|n IH]; intros w pool Hle.
  - destruct pool as [|[tk oy th td tc ti []] pool]; [done| |];
      unfold awaitsAheadAll, awaitsAhead in Hle; simpl in Hle; lia.
  - cbn [repeat]. unfold settleAll. cbn [fold_left].
    destruct pool as [|task pool].
    + change (settle 0 (Fulfilled None) (w, [])) with (w, @nil BounceTask).
      apply (IH w []). unfold awaitsAheadAll. simpl. lia.
    + pose proof (settle_first_counts_down None w task pool) as Hdown.
      destruct (settle 0 (Fulfilled None) (w, task :: pool)) as [w' pool'].
      apply (IH w' pool'). simpl in Hdown. lia.
Qed.

End BounceProgress.

Section BounceClaim.
Import Flipper Scenario.

Lemma cycles_app tokenId y0 h d n m :
  cycles tokenId y0 h d (n + m)
  = cycles tokenId y0 h d n ++ cycles tokenId y0 h d m.
Proof. unfold cycles. by rewrite List.repeat_app, concat_app. Qed.

(** A bounce in flight has requested a prefix of its cycles. *)
Lemma requested_prefix tokenId y0 h d count i phase :
  (0 ≤ i < count)%Z →
  (cycles tokenId y0 h d (Z.to_nat i)
     ++ requestedInIteration (mkBounce tokenId y0 h d count i phase))
  `prefix_of` cycles tokenId y0 h d (Z.to_nat count).
Proof.
  intros Hrange.
  replace (Z.to_nat count) with (Z.to_nat i + (1 + Z.to_nat (count - i - 1)))%nat by lia.
  rewrite !cycles_app. apply prefix_app, prefix_app_r.
  unfold requestedInIteration. simpl.
  destruct phase; [by exists [bounceDown tokenId y0 d] | done].
Qed.

(** A selected token that is owned and idle, with document y equal to
    y0, in a selection that is bounced.  Whatever the order in which the
    host fulfils the pending updates of all the bounces in flight: the
    updates requested for this token are a prefix of [count] cycles;
    once its bounce is over exactly [count] cycles were requested and
    the document y is y0 again; and the host can always bring every
    bounce to its end. *)
Lemma bounce_requests_follow_the_cycles
    (w : World) (schedule : list nat) (tokenId : string) (token : Token) :
  NoDup (controlled w) →
  tokenId ∈ controlled w →
  tokens w !! tokenId = Some token →
  token_isOwner token = true →
  isAnimating token = false →
  let y0 := doc_y token in
  let h := setting_bounceHeight w in
  let d := setting_bounceDuration w in
  let count := Z.to_nat (setting_bounceCount w) in
  let c := settleAll schedule (bounceSelectedTokens w) in
  (∃ requested,
     updatesOf tokenId (trace c.1) = updatesOf tokenId (trace w) ++ requested
     ∧ requested `prefix_of` cycles tokenId y0 h d count
     ∧ (bouncesOf tokenId c.2 = [] →
        requested = cycles tokenId y0 h d count
        ∧ doc_y <$> tokens c.1 !! tokenId = Some y0))
  ∧ (∃ more, (settleAll more c).2 = [])
  ∧ cycles tokenId y0 h d 1
    = [DocumentUpdate tokenId DocY (y0 - h)%Q true (d / 2)%Q (Some "easeOutQuad");
       DocumentUpdate tokenId DocY y0 true (d / 2)%Q (Some "easeInQuad")].
Proof.
  intros Hnd Hin Htoken Hown Hidle y0 h d count c.
  assert (bounceProgress tokenId y0 h d (setting_bounceCount w)
            (updatesOf tokenId (trace w)) (bounceSelectedTokens w)) as Hstart.
  { unfold bounceSelectedTokens.
    destruct (controlled w) eqn:Hsel; [by apply elem_of_nil in Hin|].
    rewrite <- Hsel in *.
    destruct (bounceLoop_token h d (setting_bounceCount w) w tokenId (controlled w)
                w eq_refl) as (Htok & _ & Hsel').
    destruct (Hsel' Hnd Hin token Htoken Hown Hidle) as [Hupd Htasks].
    unfold bounceProgress. fold h d. rewrite Htok, Htoken, Htasks, Hupd.
    split; [by eexists|].
    destruct (0 <? setting_bounceCount w)%Z eqn:Hcount.
    - apply Z.ltb_lt in Hcount. cbn [bounce_i bounce_phase].
      split; [done|]. split; [lia|done].
    - apply Z.ltb_ge in Hcount.
      replace (Z.to_nat (setting_bounceCount w)) with 0%nat by lia. done. }
  pose proof (bounceProgress_settleAll _ _ _ _ _ _ schedule _ Hstart) as [_ Hprog].
  fold c in Hprog. split; [|split; [|done]].
  - destruct (bouncesOf tokenId c.2) as [|task [|task' tasks]]; [| |done].
    + destruct Hprog as [Hupd Hy]. eexists. split; [exact Hupd|]. done.
    + destruct Hprog as (Htask & Hrange & Hupd). eexists. split; [exact Hupd|].
      split; [|done]. rewrite Htask. cbn [bounce_i]. by apply requested_prefix.
  - exists (repeat 0%nat (awaitsAheadAll c.2)).
    destruct c as [w' pool]. by apply bounces_drain.
Qed.

Lemma bounce_requests_follow_the_cycles_on_the_table :
  ∃ more,
    (settleAll more
       (settleAll [0; 1; 1; 0]%nat (bounceSelectedTokens (table ["A"; "N"; "B"])))).2 = [].
Proof.
  refine (proj1 (proj2
    (bounce_requests_follow_the_cycles (table ["A"; "N"; "B"])
       [0; 1; 1; 0]%nat "B" tokenB _ _ _ _ _))).
  - simpl. repeat (apply NoDup_cons; split;
      [intros Hin; repeat (apply elem_of_cons in Hin as [Heq|Hin]; [discriminate|]);
       by apply elem_of_nil in Hin|]).
    apply NoDup_nil_2.
  - simpl. do 2 (apply elem_of_cons; right). apply elem_of_cons. by left.
  - vm_compute. reflexivity.
  - reflexivity.
  - reflexivity.
Defined.

(** The scenario of two tokens A and B bounced with height 20, duration
    150 and count 3, the host fulfilling their updates in turn: three
    cycles each around the token's own y, both back where they were. *)
Example two_tokens_bounce_independently :
  let c := settleAll [0; 1; 0; 1; 1; 0; 0; 0; 0; 0; 0; 0]%nat
             (bounceSelectedTokens (table ["A"; "B"])) in
  c.2 = []
  ∧ updatesOf "A" (trace c.1) = cycles "A" 40 20 150 3
  ∧ updatesOf "B" (trace c.1) = cycles "B" 75 20 150 3
  ∧ doc_y <$> tokens c.1 !! "A" = Some 40%Q
  ∧ doc_y <$> tokens c.1 !! "B" = Some 75%Q.
Proof. vm_compute. done. Qed.

End BounceClaim.

Section PermissionLoops.
Import Flipper.


End PermissionLoops.

Section EmotePermission.
Import Emotes.

(** [renderEmoteLocally] up to its first [await] shows the user nothing
    and sends nothing; it leaves the tokens, the scene and the registry
    as they are. *)
Lemma renderEmoteLocally_quiet sceneId tokenId emoteId w :
  let r := renderEmoteLocally sceneId tokenId emoteId w in
  tokens r.1 = tokens w ∧ scene r.1 = scene w
  ∧ activeEmotes r.1 = activeEmotes w ∧ setting_emotes r.1 = setting_emotes w
  ∧ notifications (trace r.1) = notifications (trace w)
  ∧ emitted (trace r.1) = emitted (trace w).
Proof.
  unfold renderEmoteLocally. case_bool_decide; [done|].
  destruct (tokens w !! tokenId); [|done].
  destruct (findEmote emoteId _); [|done].
  case_bool_decide; [done|]. cbn [fst].
  rewrite emit_trace, notifications_app. unfold emitted. rewrite omap_app.
  simpl. by rewrite !app_nil_r.
Qed.

(** For a token of the viewed scene and a configured emote,
    [renderEmoteLocally] starts a playback unless one is registered. *)
Lemma renderEmoteLocally_spawns sceneId tokenId emoteId token emote w :
  scene w = Some sceneId →
  tokens w !! tokenId = Some token →
  findEmote emoteId (default [] (setting_emotes w)) = Some emote →
  taskKey <$> spawned (renderEmoteLocally (Some sceneId) tokenId emoteId w).2
  = if bool_decide (is_Some (activeEmotes w !! emoteKey tokenId emoteId))
    then [] else [emoteKey tokenId emoteId].
Proof.
  intros Hscene Htoken Hemote. unfold renderEmoteLocally.
  rewrite Hscene, Htoken, Hemote. rewrite bool_decide_false by naive_solver.
  by case_bool_decide.
Qed.

(** The loop of [playEmote]: one permission warning per selected token
    that is not owned; for every selected token that is owned, one
    message put on the socket and a local playback started unless one
    is registered. *)
Lemma playEmoteLoop_permissions emoteId emote sceneId w0 rest : ∀ w,
  tokens w = tokens w0 →
  activeEmotes w = activeEmotes w0 →
  setting_emotes w = setting_emotes w0 →
  scene w = Some sceneId →
  findEmote emoteId (default [] (setting_emotes w0)) = Some emote →
  notifications (trace (playEmoteLoop emoteId rest w).1)
  = notifications (trace w) ++ omap (permissionWarning "emote with" w0) rest
  ∧ emitted (trace (playEmoteLoop emoteId rest w).1)
    = emitted (trace w)
      ++ map (λ id, mkMessage "playEmote" (Some sceneId) id emoteId)
           (List.filter (owned w0) rest)
  ∧ taskKey <$> (playEmoteLoop emoteId rest w).2
    = map (λ id, emoteKey id emoteId) (List.filter (rendersLocally w0 emoteId) rest).
Proof.
  induction rest as [|id rest IH]; intros w Hsame Hactive Hsetting Hscene Hemote.
  { simpl. by rewrite !app_nil_r. }
  cbn [playEmoteLoop omap List.filter list_omap].
  set (warned := omap (permissionWarning "emote with" w0) rest).
  set (sent := List.filter (owned w0) rest).
  set (played := List.filter (rendersLocally w0 emoteId) rest).
  unfold permissionWarning, rendersLocally, owned. rewrite Hsame.
  destruct (tokens w0 !! id) as [tok|] eqn:Hlookup; [|by apply IH].
  destruct (token_isOwner tok) eqn:Howner; cbn [negb andb].
  2:{ match goal with
      | |- context [playEmoteLoop emoteId rest ?w1] =>
          destruct (IH w1) as (Hnote & Hsent & Htasks); [done..|]
      end.
      rewrite Hnote, Hsent, Htasks, emit_trace, notifications_app, emitted_app.
      simpl. rewrite app_nil_r. split; [|done]. by rewrite <- (assoc_L (++)). }
  rewrite Hscene.
  pose proof (renderEmoteLocally_quiet (Some sceneId) id emoteId w)
    as (Htok1 & Hscene1 & Hactive1 & Hsetting1 & Hnote1 & Hsent1).
  pose proof (renderEmoteLocally_spawns sceneId id emoteId tok emote w Hscene) as Hspawn.
  rewrite Hsame, Hsetting, Hactive in Hspawn. specialize (Hspawn Hlookup Hemote).
  destruct (renderEmoteLocally (Some sceneId) id emoteId w) as [w1 task].
  cbn [fst snd] in *.
  match goal with
  | |- context [playEmoteLoop emoteId rest ?w2] =>
      destruct (IH w2) as (Hnote & Hsent & Htasks); [simpl; congruence..|];
      destruct (playEmoteLoop emoteId rest w2) as [w3 tasks]
  end.
  cbn [fst snd] in *.
  rewrite Hnote, Hsent, emit_trace, notifications_app, emitted_app, Hnote1, Hsent1.
  simpl. rewrite app_nil_r. split; [done|]. split.
  - by rewrite <- (assoc_L (++)).
  - rewrite fmap_app, Hspawn, Htasks. by case_bool_decide.
Qed.

End EmotePermission.

Section PermissionClaim.
Import Emotes Flipper Scenario.



(** The same selection bounced and given the heart emote. *)
Example mixed_selection_bounce_and_emote :
  let bounced := bounceSelectedTokens (table ["N"; "B"; "A"]) in
  let played := playEmote "heart" (table ["N"; "B"; "A"]) in
  notifications (trace bounced.1)
  = [Notify Warn "You don't have permission to bounce Nemesis."]
  ∧ bounce_token <$> bounced.2 = ["B"; "A"]
  ∧ notifications (trace played.1)
    = [Notify Warn "You don't have permission to emote with Nemesis."]
  ∧ emitted (trace played.1)
    = [mkMessage "playEmote" (Some "S") "B" "heart";
       mkMessage "playEmote" (Some "S") "A" "heart"]
  ∧ taskKey <$> played.2 = ["B-heart"; "A-heart"].
Proof. vm_compute. done. Qed.

End PermissionClaim.

(** * Further properties of emote playback *)

Section PlaybackKeys.
Import Emotes Scenario.

Lemma emoteKey_unfold tokenId emoteId :
  emoteKey tokenId emoteId = tokenId +:+ String dash emoteId.
Proof. reflexivity. Qed.

(** X1.  Two (token, emote) pairs whose token ids contain no dash get the
    same registry key only when they are the same pair. *)
Theorem emoteKey_injective_on_dash_free_tokens
    (tokenId1 tokenId2 emoteId1 emoteId2 : string) :
  dashFree tokenId1 = true →
  dashFree tokenId2 = true →
  emoteKey tokenId1 emoteId1 = emoteKey tokenId2 emoteId2 →
  tokenId1 = tokenId2 ∧ emoteId1 = emoteId2.
Proof.
  rewrite !emoteKey_unfold. revert tokenId2.
  induction tokenId1 as [|c1 t1 IH]; intros [|c2 t2]; simpl.
  - intros _ _ [= ->]. done.
  - intros _ [Hc _]%andb_prop [= <- _].
    by rewrite bool_decide_true in Hc.
  - intros [Hc _]%andb_prop _ [= -> _].
    by rewrite bool_decide_true in Hc.
  - intros [_ H1]%andb_prop [_ H2]%andb_prop [= -> Htail].
    destruct (IH t2 H1 H2 Htail) as [-> ->]. done.
Qed.

Lemma emoteKey_injective_on_dash_free_tokens_witness :
  "T" = "T" ∧ "heart" = "heart".
Proof.
  apply (emoteKey_injective_on_dash_free_tokens "T" "T" "heart" "heart");
    reflexivity.
Defined.

(** With a dash in a token id two different pairs can share a key, and
    the playback of one then suppresses the other. *)
Example emoteKey_collides_across_dashes :
  emoteKey "a-b" "c" = emoteKey "a" "b-c".
Proof. reflexivity. Qed.

(** X2.  Resuming a playback call, with whatever settlement, leaves the
    tokens, the scene, the selection and the settings alone, and in the
    registry touches no key but its own. *)
Theorem playback_touches_only_its_own_key
    (task : EmoteTask) (s : Settlement) (w : World) (key : string) :
  key ≠ taskKey task →
  let w' := (resume task s w).1 in
  activeEmotes w' !! key = activeEmotes w !! key
  ∧ tokens w' = tokens w ∧ scene w' = scene w
  ∧ controlled w' = controlled w ∧ setting_emotes w' = setting_emotes w.
Proof.
  intros Hkey.
  destruct task, s as [[texture|]|reason]; simpl in *;
    unfold startSprite, animateSprite; simpl;
    try (destruct (Qle_bool _ 0); simpl);
    rewrite ?lookup_delete_ne, ?lookup_insert_ne by done;
    done.
Qed.

Lemma playback_touches_only_its_own_key_witness :
  activeEmotes (resume (AwaitHold 0 blank "T-blank") settled
                  (with_activeEmotes (<["A-heart" := 7%nat]>) (table []))).1 !! "A-heart"
  = Some 7%nat.
Proof.
  refine (eq_trans (proj1 (playback_touches_only_its_own_key
            (AwaitHold 0 blank "T-blank") settled
            (with_activeEmotes (<["A-heart" := 7%nat]>) (table [])) "A-heart" _)) _).
  - simpl. discriminate.
  - vm_compute. reflexivity.
Defined.

End PlaybackKeys.

Section SpriteReferences.
Import Emotes Scenario.

Lemma filter_keeps_all {A} (P : A → Prop) `{∀ x, Decision (P x)} (l : list A) :
  (∀ x, x ∈ l → P x) → filter P l = l.
Proof.
  induction l as [|x l IH]; intros Hall; [done|].
  rewrite filter_cons_True by (apply Hall; left). f_equal.
  apply IH. intros y Hy. apply Hall. by right.
Qed.

Lemma objectAssign_is_Some sprite properties : ∀ store j,
  is_Some (objectAssign sprite properties store !! j) ↔ is_Some (store !! j).
Proof.
  unfold objectAssign. induction properties as [|kv properties IH]; intros store j;
    simpl; [done|].
  by rewrite IH, lookup_alter_is_Some.
Qed.

Lemma animationsCompleted_is_Some animations w j :
  is_Some (sprites (animationsCompleted animations w) !! j) ↔ is_Some (sprites w !! j).
Proof.
  unfold animationsCompleted. simpl. generalize (sprites w).
  induction animations as [|a animations IH]; intros store; simpl; [done|].
  by rewrite IH, lookup_alter_is_Some.
Qed.

(** [animateSprite] adds no child, allocates nothing, registers nothing
    and removes no sprite object. *)
Lemma animateSprite_stage sprite properties duration w :
  let w' := (animateSprite sprite properties duration w).1 in
  children w' = children w ∧ nextSprite w' = nextSprite w
  ∧ activeEmotes w' = activeEmotes w
  ∧ ∀ j, is_Some (sprites w' !! j) ↔ is_Some (sprites w !! j).
Proof.
  unfold animateSprite. destruct (Qle_bool duration 0); simpl; [|done].
  repeat split; try done; by apply objectAssign_is_Some.
Qed.

Lemma resume_keeps_references_fresh task s w :
  spritesFresh w → spritesFresh (resume task s w).1.
Proof.
  intros (Hnd & Hchildren & Hactive).
  assert (∀ key reason, spritesFresh (catchBlock key reason w)) as Hrejected.
  { intros key reason. split; [done|]. split; [done|].
    simpl. intros k j [_ Hj]%lookup_delete_Some. by eapply Hactive. }
  destruct s as [v|reason]; [|destruct task; apply Hrejected].
  destruct task; cbn [resume fst]; [destruct v as [texture|]; cbn [fst]|..].
  - (* the texture is loaded: a sprite is allocated, added and registered *)
    unfold startSprite. cbn [allocSprite addChild with_children with_activeEmotes
      emit children sprites nextSprite activeEmotes trace tokens].
    match goal with
    | |- context [animateSprite ?sp ?props ?d ?w0] =>
        pose proof (animateSprite_stage sp props d w0) as Hstage;
        cbv zeta in Hstage; destruct Hstage as (Hc & Hn & Ha & Hs);
        destruct (animateSprite sp props d w0) as [w4 delegated]
    end.
    cbn [fst] in *. unfold spritesFresh. rewrite Hc, Hn, Ha. simpl.
    split; [|split].
    + apply NoDup_app. split; [done|]. split; [|apply NoDup_singleton].
      intros j Hj [= ->]%list_elem_of_singleton.
      destruct (Hchildren _ Hj) as [Hlt _]. lia.
    + intros j Hj. rewrite Hs. simpl. rewrite lookup_insert_is_Some'.
      apply elem_of_app in Hj as [Hj| ->%list_elem_of_singleton].
      * destruct (Hchildren _ Hj) as [Hlt Hobj]. split; [lia|]. by right.
      * split; [lia|]. by left.
    + intros k j [[_ <-]|[_ Hj]]%lookup_insert_Some; [lia|].
      specialize (Hactive _ _ Hj). lia.
  - (* the texture is falsy: a warning only *)
    done.
  - (* the fade-in is over: the hold is started *)
    unfold spritesFresh. cbn [wait emit children sprites nextSprite activeEmotes
      animationsCompleted with_sprites].
    split; [done|]. split; [|done].
    intros j Hj. destruct (Hchildren _ Hj) as [Hlt Hobj]. split; [done|].
    by apply (animationsCompleted_is_Some delegated w j).
  - (* the hold is over: the fade-out is started *)
    match goal with
    | |- context [animateSprite ?sp ?props ?d ?w0] =>
        pose proof (animateSprite_stage sp props d w0) as Hstage;
        cbv zeta in Hstage; destruct Hstage as (Hc & Hn & Ha & Hs);
        destruct (animateSprite sp props d w0) as [w1 delegated]
    end.
    cbn [fst] in *. unfold spritesFresh. rewrite Hc, Hn, Ha.
    split; [done|]. split; [|done].
    intros j Hj. rewrite Hs. by apply Hchildren.
  - (* the fade-out is over: the sprite is removed and destroyed *)
    unfold spritesFresh. cbn [with_activeEmotes destroySprite removeChild emit
      with_sprites with_children children sprites nextSprite activeEmotes
      animationsCompleted].
    split; [by apply NoDup_filter|]. split.
    + intros j [_ Hj]%list_elem_of_filter.
      destruct (Hchildren _ Hj) as [Hlt Hobj]. split; [done|].
      rewrite lookup_alter_is_Some.
      by apply (animationsCompleted_is_Some delegated w j).
    + intros k j [_ Hj]%lookup_delete_Some. by eapply Hactive.
Qed.

End SpriteReferences.

Section TriggersOnlyLog.
Import Emotes Scenario.

Lemma logged_app events1 events2 w :
  logged (events1 ++ events2) w = logged events2 (logged events1 w).
Proof. apply fold_left_app. Qed.

Lemma logged_stage events : ∀ w,
  scene (logged events w) = scene w ∧ tokens (logged events w) = tokens w
  ∧ controlled (logged events w) = controlled w
  ∧ children (logged events w) = children w ∧ sprites (logged events w) = sprites w
  ∧ nextSprite (logged events w) = nextSprite w
  ∧ activeEmotes (logged events w) = activeEmotes w
  ∧ setting_emotes (logged events w) = setting_emotes w
  ∧ trace (logged events w) = trace w ++ events.
Proof.
  induction events as [|e events IH]; intros w; simpl.
  - by rewrite app_nil_r.
  - destruct (IH (emit e w)) as (-> & -> & -> & -> & -> & -> & -> & -> & ->).
    simpl. by rewrite <- (assoc_L (++)).
Qed.

Lemma renderEmoteLocally_logs sceneId tokenId emoteId w :
  ∃ events, (renderEmoteLocally sceneId tokenId emoteId w).1 = logged events w.
Proof.
  unfold renderEmoteLocally.
  case_bool_decide; [by exists []|].
  destruct (tokens w !! tokenId); [|by exists []].
  destruct (findEmote emoteId _) as [emote|]; [|by exists []].
  case_bool_decide; [by exists []|]. by exists [LoadTexture (emote_image emote)].
Qed.

Lemma playEmoteLoop_logs emoteId rest : ∀ w,
  ∃ events, (playEmoteLoop emoteId rest w).1 = logged events w.
Proof.
  induction rest as [|id rest IH]; intros w; simpl; [by exists []|].
  destruct (tokens w !! id) as [tok|]; [|apply IH].
  destruct (token_isOwner tok); simpl.
  2:{ match goal with
      | |- context [playEmoteLoop emoteId rest (emit ?e w)] =>
          destruct (IH (emit e w)) as [events ->]; by exists (e :: events)
      end. }
  destruct (scene w) as [sceneId|]; [|by exists []].
  destruct (renderEmoteLocally_logs (Some sceneId) id emoteId w) as [events1 Hlocal].
  destruct (renderEmoteLocally (Some sceneId) id emoteId w) as [w1 task].
  simpl in Hlocal. subst w1.
  match goal with
  | |- context [playEmoteLoop emoteId rest (emit ?e ?w1)] =>
      destruct (IH (emit e w1)) as [events2 Hrest];
      destruct (playEmoteLoop emoteId rest (emit e w1)) as [w3 tasks];
      exists (events1 ++ e :: events2)
  end.
  simpl in *. by rewrite logged_app.
Qed.

(** X3.  Until a texture settles, triggering playback changes nothing on
    the client but the log of host calls: [playEmote] and the socket
    listener leave the scene's children, the sprite objects, the
    registry, the tokens, the selection and the settings as they are. *)
Theorem triggers_only_make_host_calls (w : World) (emoteId : string)
    (data : BroadcastMessage) :
  (∃ events, (playEmote emoteId w).1 = logged events w)
  ∧ (∃ events, (onSocketMessage data w).1 = logged events w).
Proof.
  split.
  - unfold playEmote. destruct (controlled w) eqn:Hsel; [by eexists [_]|].
    destruct (findEmote emoteId _); [|by eexists [_]].
    rewrite <- Hsel. apply playEmoteLoop_logs.
  - unfold onSocketMessage. case_bool_decide; [|by exists []].
    apply renderEmoteLocally_logs.
Qed.

Lemma spritesFresh_logged events w : spritesFresh w → spritesFresh (logged events w).
Proof.
  unfold spritesFresh.
  destruct (logged_stage events w) as (_ & _ & _ & -> & -> & -> & -> & _). done.
Qed.

(** X4.  Sprite references stay fresh through everything that can
    happen on a client: after any sequence of local triggers, received
    messages and settlements, no sprite is among the scene's children
    twice, every child was allocated and still has its object, and the
    registry names allocated sprites only. *)
Theorem sprite_references_stay_fresh (actions : list Action) (c : Client) :
  spritesFresh c.1 → spritesFresh (run actions c).1.
Proof.
  revert c. induction actions as [|a actions IH]; intros c Hfresh; [done|].
  simpl. apply IH. destruct c as [w pool]. destruct a as [emoteId|data|i s]; simpl.
  - destruct (triggers_only_make_host_calls w emoteId (mkMessage "" None "" ""))
      as [[events Hlog] _].
    destruct (playEmote emoteId w) as [w' tasks]. simpl in *. subst w'.
    by apply spritesFresh_logged.
  - destruct (triggers_only_make_host_calls w "" data) as [_ [events Hlog]].
    destruct (onSocketMessage data w) as [w' task]. simpl in *. subst w'.
    by apply spritesFresh_logged.
  - destruct (pool !! i) as [task|]; [|done].
    pose proof (resume_keeps_references_fresh task s w Hfresh) as Hstep.
    by destruct (resume task s w) as [w' [task'|]].
Qed.

Lemma sprite_references_stay_fresh_witness :
  spritesFresh
    (run [Receive heartOnT; Receive heartOnT; Settle 0 heartTexture;
          Settle 1 heartTexture; Settle 0 (Rejected "boom")] (table [], [])).1.
Proof.
  apply (sprite_references_stay_fresh _ (table [], [])).
  split; [apply NoDup_nil_2|]. split.
  - intros s Hs. by apply elem_of_nil in Hs.
  - intros key s Hs. simpl in Hs. by rewrite lookup_empty in Hs.
Defined.

End TriggersOnlyLog.

Section PlaybackReleases.
Import Emotes Scenario.

(** X5.  A playback that runs to its normal end gives back what it
    took: the scene's children and the registry are as before the call,
    the sprite objects that existed are untouched, and the sprite the
    call created is destroyed. *)
Theorem completed_playback_releases_what_it_took
    (w : World) (sceneId : option string) (tokenId emoteId texture : string)
    (v1 v2 v3 : option string) :
  spritesFresh w →
  activeEmotes w !! emoteKey tokenId emoteId = None →
  let r := playback sceneId tokenId emoteId
             [Fulfilled (Some texture); Fulfilled v1; Fulfilled v2; Fulfilled v3] w in
  r.2 = None
  ∧ children r.1 = children w
  ∧ activeEmotes r.1 = activeEmotes w
  ∧ tokens r.1 = tokens w
  ∧ (∀ j, (j < nextSprite w)%nat → sprites r.1 !! j = sprites w !! j)
  ∧ (∀ j, (nextSprite w ≤ j < nextSprite r.1)%nat →
       sprite_destroyed <$> sprites r.1 !! j = Some true).
Proof.
  intros (Hnd & Hchildren & Hactive) Hfree. unfold playback, renderEmoteLocally.
  assert (∀ w0 : World, w0 = w →
            (w0, @None EmoteTask).2 = None ∧ children w0 = children w
            ∧ activeEmotes w0 = activeEmotes w ∧ tokens w0 = tokens w
            ∧ (∀ j, (j < nextSprite w)%nat → sprites w0 !! j = sprites w !! j)
            ∧ (∀ j, (nextSprite w ≤ j < nextSprite w0)%nat →
                 sprite_destroyed <$> sprites w0 !! j = Some true)) as Hnothing.
  { intros w0 ->. repeat split; try done. intros j Hj. lia. }
  case_bool_decide; [by apply Hnothing|].
  destruct (tokens w !! tokenId) as [token|] eqn:Htoken; [|by apply Hnothing].
  destruct (findEmote emoteId _) as [emote|]; [|by apply Hnothing].
  rewrite Hfree. rewrite bool_decide_false by (by intros []).
  destruct (Qle_bool (js_or (emote_fadeIn emote) 200) 0) eqn:HfadeIn,
    (Qle_bool (js_or (emote_fadeOut emote) 200) 0) eqn:HfadeOut.
  all: cbn [resumeAll resume]; unfold startSprite;
    repeat first [ rewrite HfadeIn | rewrite HfadeOut
                 | progress unfold animateSprite
                 | progress cbn -[MODULE_ID animateSprite] ].
  all: split; [done|]; split;
    [ rewrite filter_app, filter_keeps_all;
      [ rewrite filter_cons_False by (by intros Hne; apply Hne); by rewrite app_nil_r
      | intros j Hj ->; destruct (Hchildren _ Hj); lia ]
    | ].
  all: split; [by apply delete_insert_id|]; split; [done|]; split.
  all: try (intros j Hj;
            rewrite ?lookup_alter_ne, ?lookup_insert_ne by lia; done).
  all: intros j Hj; replace j with (nextSprite w) by lia;
    by rewrite ?lookup_alter_eq, lookup_insert_eq.
Qed.

Lemma completed_playback_releases_what_it_took_witness :
  children (playback (Some "S") "T" "heart"
              [heartTexture; settled; settled; settled] (table [])).1 = [].
Proof.
  refine (proj1 (proj2
    (completed_playback_releases_what_it_took (table []) (Some "S") "T" "heart"
       "heart.svg" None None None _ _))).
  - split; [apply NoDup_nil_2|]. split.
    + intros s Hs. by apply elem_of_nil in Hs.
    + intros key s Hs. simpl in Hs. by rewrite lookup_empty in Hs.
  - reflexivity.
Defined.

(** X6.  A stored fadeIn below zero is not replaced by the default and
    is not animated: once the texture is loaded the sprite is added and
    set to full opacity at once, with no animation handed to the host. *)
Theorem negative_fade_in_is_applied_at_once
    (w : World) (tokenId : string) (token : Token) (emote : Emote)
    (key texture : string) (q : Q) :
  emote_fadeIn emote = JNumber q →
  (q < 0)%Q →
  let r := resume (AwaitTexture tokenId token emote key) (Fulfilled (Some texture)) w in
  trace r.1 = trace w ++ [AddChild (nextSprite w)]
  ∧ sprite_alpha <$> sprites r.1 !! nextSprite w = Some 1%Q
  ∧ r.2 = Some (AwaitFadeIn (nextSprite w) [] emote key).
Proof.
  intros HfadeIn Hneg. cbn [resume]. unfold startSprite, animateSprite.
  rewrite HfadeIn.
  assert (js_or (JNumber q) 200 = q) as ->.
  { simpl. destruct (Z.eqb_spec (Qnum q) 0) as [Hzero|]; [|done].
    unfold Qlt in Hneg. simpl in Hneg. lia. }
  assert (Qle_bool q 0 = true) as ->.
  { apply Qle_bool_iff. by apply Qlt_le_weak. }
  cbn -[MODULE_ID]. by rewrite lookup_alter_eq, lookup_insert_eq.
Qed.

Lemma negative_fade_in_is_applied_at_once_witness :
  trace (resume (AwaitTexture "T" tokenT
                   (mkEmote "pop" "Pop" "pop.svg" (JNumber 0) (JNumber 0) (JNumber 1)
                      (JNumber 1500) (JNumber (-5)) (JNumber 200)) "T-pop")
           (Fulfilled (Some "pop.svg")) (table [])).1
  = [AddChild 0].
Proof.
  refine (proj1 (negative_fade_in_is_applied_at_once (table []) "T" tokenT
                   (mkEmote "pop" "Pop" "pop.svg" (JNumber 0) (JNumber 0) (JNumber 1)
                      (JNumber 1500) (JNumber (-5)) (JNumber 200))
                   "T-pop" "pop.svg" (-5) _ _)).
  - reflexivity.
  - reflexivity.
Defined.

End PlaybackReleases.

Section BroadcastRelay.
Import Emotes Scenario.

(** A client that views the scene, has the tokens and the emote, and has
    nothing registered starts one playback per message it receives. *)
Lemma peer_starts_a_playback_per_message sceneId emoteId emote ids : ∀ w pool,
  scene w = Some sceneId →
  findEmote emoteId (default [] (setting_emotes w)) = Some emote →
  activeEmotes w = ∅ →
  (∀ id, id ∈ ids → is_Some (tokens w !! id)) →
  taskKey <$> (run (Receive <$>
                      map (λ id, mkMessage "playEmote" (Some sceneId) id emoteId) ids)
                 (w, pool)).2
  = (taskKey <$> pool) ++ map (λ id, emoteKey id emoteId) ids.
Proof.
  induction ids as [|id ids IH]; intros w pool Hscene Hemote Hactive Htokens.
  { simpl. by rewrite app_nil_r. }
  destruct (Htokens id) as [token Htoken]; [by left|].
  assert (onSocketMessage (mkMessage "playEmote" (Some sceneId) id emoteId) w
          = (emit (LoadTexture (emote_image emote)) w,
             Some (AwaitTexture id token emote (emoteKey id emoteId)))) as Hstep.
  { unfold onSocketMessage, renderEmoteLocally.
    cbn [msg_action msg_sceneId msg_tokenId msg_emoteId].
    rewrite Hscene, Hemote, Hactive, Htoken, lookup_empty.
    rewrite (bool_decide_true ("playEmote" = "playEmote")) by done.
    rewrite (bool_decide_false (Some sceneId ≠ Some sceneId)) by (by intros Hne).
    by rewrite bool_decide_false by (by intros []). }
  cbn [map fmap list_fmap run fold_left step]. rewrite Hstep. cbn [spawned].
  change (fold_left (λ c a, step a c) ?l ?c) with (run l c).
  etrans.
  { apply (IH (emit (LoadTexture (emote_image emote)) w)); try done.
    intros id' Hid'. apply Htokens. by right. }
  rewrite fmap_app. simpl. by rewrite <- (assoc_L (++)).
Qed.

(** X7.  The broadcast reproduces the local playbacks on a peer.  When
    a user plays an emote with nothing registered on either side, a
    peer that views the same scene, has the emote and has the sender's
    owned tokens ends up, after receiving the messages the sender put
    on the socket, with playbacks in flight for exactly the keys the
    sender started locally, in the same order. *)
Theorem broadcast_starts_the_same_playbacks_on_a_peer
    (sender receiver : World) (emoteId sceneId : string) (emote emote' : Emote) :
  controlled sender ≠ [] →
  scene sender = Some sceneId →
  scene receiver = Some sceneId →
  findEmote emoteId (default [] (setting_emotes sender)) = Some emote →
  findEmote emoteId (default [] (setting_emotes receiver)) = Some emote' →
  (∀ id, owned sender id = true → is_Some (tokens receiver !! id)) →
  activeEmotes sender = ∅ →
  activeEmotes receiver = ∅ →
  emitted (trace sender) = [] →
  let played := playEmote emoteId sender in
  let peer := run (Receive <$> emitted (trace played.1)) (receiver, []) in
  taskKey <$> peer.2 = taskKey <$> played.2.
Proof.
  intros Hsel Hscene Hscene' Hemote Hemote' Htokens Hactive Hactive' Hquiet played peer.
  subst played peer. unfold playEmote. rewrite Hemote.
  destruct (controlled sender) as [|id rest] eqn:Hcontrolled; [done|].
  rewrite <- Hcontrolled. clear Hcontrolled Hsel id rest.
  destruct (playEmoteLoop_permissions emoteId emote sceneId sender (controlled sender)
              sender eq_refl eq_refl eq_refl Hscene Hemote) as (_ & -> & ->).
  rewrite Hquiet. cbn [app].
  rewrite (peer_starts_a_playback_per_message sceneId emoteId emote'); try done.
  - cbn [fmap list_fmap app]. f_equal.
    clear -Hactive. induction (controlled sender) as [|id ids IH]; [done|]. simpl.
    unfold rendersLocally at 1. rewrite Hactive, lookup_empty.
    rewrite bool_decide_false by (by intros []).
    rewrite andb_true_r. destruct (owned sender id); simpl; by rewrite IH.
  - intros id [_ Hown]%list_elem_of_In%List.filter_In. by apply Htokens.
Qed.

Lemma broadcast_starts_the_same_playbacks_on_a_peer_witness :
  taskKey <$>
    (run (Receive <$> emitted (trace (playEmote "heart" (table ["N"; "B"; "A"])).1))
       (table [], [])).2
  = taskKey <$> (playEmote "heart" (table ["N"; "B"; "A"])).2.
Proof.
  refine (broadcast_starts_the_same_playbacks_on_a_peer
            (table ["N"; "B"; "A"]) (table []) "heart" "S"
            (mkEmote "heart" "Heart" "modules/tokenflipper/assets/heart.svg"
               (JNumber 0) (JNumber (-20)) (JNumber (3 # 4))
               (JNumber 1500) (JNumber 200) (JNumber 200))
            (mkEmote "heart" "Heart" "modules/tokenflipper/assets/heart.svg"
               (JNumber 0) (JNumber (-20)) (JNumber (3 # 4))
               (JNumber 1500) (JNumber 200) (JNumber 200))
            _ _ _ _ _ _ _ _ _).
  - simpl. discriminate.
  - reflexivity.
  - reflexivity.
  - reflexivity.
  - reflexivity.
  - intros id. unfold owned. change (tokens (table [])) with (tokens (table ["N"; "B"; "A"])).
    destruct (tokens (table ["N"; "B"; "A"]) !! id); [by eexists|discriminate].
  - reflexivity.
  - reflexivity.
  - reflexivity.
Defined.

End BroadcastRelay.

(** * Further properties of flip and bounce *)

Section FlipFrame.
Import Flipper Scenario.

Lemma setProperty_getProperty p t : setProperty p (getProperty p t) t = t.
Proof. by destruct p, t. Qed.

Lemma setProperty_setProperty p v v' t :
  setProperty p v (setProperty p v' t) = setProperty p v t.
Proof. by destruct p. Qed.

(** Relative to the world [w0] a flip started in, the token [id] of [w]
    is as it was or has its flipped property negated. *)
Lemma flipLoop_frame p d w0 (selection : list string) rest : ∀ host w,
  (∀ id, id ∈ rest → id ∈ selection) →
  (∀ id, tokens w !! id = tokens w0 !! id
         ∨ (id ∈ selection
            ∧ ∃ tok, tokens w0 !! id = Some tok ∧ token_isOwner tok = true
                     ∧ isAnimating tok = false
                     ∧ tokens w !! id
                       = Some (setProperty p (getProperty p tok * -1)%Q tok))) →
  ∀ id, tokens (flipLoop p d rest host w).1 !! id = tokens w0 !! id
        ∨ (id ∈ selection
           ∧ ∃ tok, tokens w0 !! id = Some tok ∧ token_isOwner tok = true
                    ∧ isAnimating tok = false
                    ∧ tokens (flipLoop p d rest host w).1 !! id
                      = Some (setProperty p (getProperty p tok * -1)%Q tok)).
Proof.
  induction rest as [|tokenId rest IH]; intros host w Hsub Hrel; [done|].
  assert (∀ id, id ∈ rest → id ∈ selection) as Hsub'.
  { intros id Hid. apply Hsub. by right. }
  simpl.
  destruct (tokens w !! tokenId) as [tok|] eqn:Hlookup; [|by apply IH].
  destruct (token_isOwner tok) eqn:Howner; simpl; [|by apply IH].
  destruct (isAnimating tok) eqn:Hanim; [by apply IH|].
  destruct host as [|[v|r] host]; simpl; [apply Hrel| |apply Hrel].
  apply IH; [done|]. intros id. rewrite documentUpdated_lookup.
  destruct (decide (tokenId = id)) as [<-|Hne]; [|apply Hrel].
  cbn [emit tokens]. rewrite Hlookup. simpl.
  destruct (Hrel tokenId) as [Hsame|(Hin & tok0 & Htok0 & Hown0 & Hidle0 & Hflipped)].
  - right. split; [apply Hsub; by left|]. exists tok.
    rewrite <- Hsame, Hlookup. done.
  - left. rewrite Hlookup in Hflipped. injection Hflipped as ->.
    rewrite getProperty_setProperty, setProperty_setProperty, Qmult_neg1_involutive.
    by rewrite setProperty_getProperty.
Qed.

(** X8.  Whatever the host does with the updates, a flip changes
    nothing about any token except the sign of the chosen scale factor
    of selected tokens that are owned and idle: every token is exactly
    as it was, or is such a token with that one property multiplied by
    -1. *)
Theorem flip_changes_only_the_chosen_scale
    (direction : string) (host : list Settlement) (w : World) (id : string) :
  let p := flipProperty direction in
  let w' := (flipSelectedTokens direction host w).1 in
  tokens w' !! id = tokens w !! id
  ∨ (id ∈ controlled w
     ∧ ∃ tok, tokens w !! id = Some tok ∧ token_isOwner tok = true
              ∧ isAnimating tok = false
              ∧ tokens w' !! id = Some (setProperty p (getProperty p tok * -1)%Q tok)).
Proof.
  intros p w'. subst w'. unfold flipSelectedTokens.
  destruct (controlled w) as [|tokenId rest] eqn:Hsel; [by left|].
  rewrite <- Hsel.
  apply (flipLoop_frame p (setting_flipDuration w) w (controlled w)); [done|].
  intros id'. by left.
Qed.

(** X9.  A flip awaits each update before it asks for the next, and
    stops at the first one that fails: the number of updates it requests
    is at most the number of leading fulfilments when it returns, and
    exactly one more than that when it is left suspended or throws. *)
Theorem flip_requests_one_update_at_a_time
    (direction : string) (host : list Settlement) (w : World) :
  let r := flipSelectedTokens direction host w in
  ∃ n, List.length (updateTargets (trace r.1))
       = (List.length (updateTargets (trace w)) + n)%nat
       ∧ match r.2 with
         | Returned => (n ≤ fulfilledPrefix host)%nat
         | Threw _ | Suspended => n = S (fulfilledPrefix host)
         end.
Proof.
  intros r. subst r. unfold flipSelectedTokens.
  destruct (controlled w) as [|tokenId rest'] eqn:Hsel.
  { exists 0%nat. cbn [fst snd]. rewrite emit_trace, updateTargets_app. simpl.
    rewrite app_nil_r. split; lia. }
  rewrite <- Hsel. clear Hsel tokenId rest'.
  generalize (flipProperty direction) (setting_flipDuration w). intros p d.
  generalize (controlled w). intros rest. revert host w.
  induction rest as [|id rest IH]; intros host w.
  { exists 0%nat. simpl. split; lia. }
  simpl.
  destruct (tokens w !! id) as [tok|]; [|apply IH].
  destruct (token_isOwner tok); simpl.
  2:{ match goal with
      | |- context [flipLoop p d rest host (emit ?e w)] =>
          destruct (IH host (emit e w)) as (n & Hlen & Hc)
      end.
      exists n. split; [|done]. rewrite Hlen, emit_trace, updateTargets_app. simpl.
      by rewrite app_nil_r. }
  destruct (isAnimating tok); [apply IH|].
  destruct host as [|[v|r] host]; cbn [fst snd fulfilledPrefix].
  - exists 1%nat. rewrite emit_trace, updateTargets_app, length_app. simpl. lia.
  - match goal with
    | |- context [flipLoop p d rest host ?w2] =>
        destruct (IH host w2) as (n & Hlen & Hc)
    end.
    exists (S n). split.
    + rewrite Hlen. cbn [documentUpdated with_tokens trace].
      rewrite emit_trace, updateTargets_app, length_app. simpl. lia.
    + destruct (flipLoop p d rest host _).2; lia.
  - exists 1%nat. rewrite emit_trace, updateTargets_app, length_app. simpl. lia.
Qed.

End FlipFrame.

Section BounceFrame.
Import Flipper Scenario.

Lemma bounceIteration_tokens tokenId y0 h d count i w :
  tokens (bounceIteration tokenId y0 h d count i w).1 = tokens w.
Proof. unfold bounceIteration. by destruct (i <? count)%Z. Qed.

(** Resuming a bounce, with whatever settlement, changes no token
    except in its document y. *)
Lemma resume_changes_only_y task s w id :
  setProperty DocY 0 <$> tokens (resume task s w).1 !! id
  = setProperty DocY 0 <$> tokens w !! id.
Proof.
  unfold resume. destruct s as [v|reason]; [|done].
  destruct (bounce_phase task); cbn [fst emit tokens];
    rewrite ?bounceIteration_tokens, documentUpdated_lookup;
    (destruct (decide (bounce_token task = id)) as [->|]; [|done]);
    by destruct (tokens w !! id).
Qed.

Lemma bounceLoop_tokens h d c rest : ∀ w,
  tokens (bounceLoop h d c rest w).1 = tokens w.
Proof.
  intros w. by destruct (bounceLoop_token h d c w "" rest w eq_refl) as [-> _].
Qed.

(** X10.  Bouncing moves tokens along y and does nothing else to them:
    from the start of [bounceSelectedTokens] through any settlements of
    the pending updates, fulfilled or rejected, in any order, every
    token keeps its name, owner, animation state, position, and both
    scale factors, and no token appears or disappears. *)
Theorem bounce_changes_only_document_y
    (w : World) (schedule : list (nat * Settlement)) (id : string) :
  let c := fold_left (λ c step, settle step.1 step.2 c) schedule
             (bounceSelectedTokens w) in
  setProperty DocY 0 <$> tokens c.1 !! id = setProperty DocY 0 <$> tokens w !! id.
Proof.
  intros c. subst c.
  assert (tokens (bounceSelectedTokens w).1 = tokens w) as Hstart.
  { unfold bounceSelectedTokens. destruct (controlled w); [done|].
    apply bounceLoop_tokens. }
  rewrite <- Hstart. generalize (bounceSelectedTokens w). clear Hstart.
  induction schedule as [|[i s] schedule IH]; intros c; [done|].
  cbn [fold_left fst snd]. rewrite IH. destruct c as [w0 pool].
  unfold settle. destruct (pool !! i) as [task|]; [|done].
  pose proof (resume_changes_only_y task s w0 id) as Hstep.
  by destruct (resume task s w0) as [w' [task'|]].
Qed.

(** X11.  With a bounce count of zero or less no bounce is started and
    no update is requested, whatever the selection; the documents stay
    as they are. *)
Theorem non_positive_count_bounces_nothing (w : World) :
  (setting_bounceCount w ≤ 0)%Z →
  let r := bounceSelectedTokens w in
  r.2 = [] ∧ updateTargets (trace r.1) = updateTargets (trace w)
  ∧ tokens r.1 = tokens w.
Proof.
  intros Hcount r. subst r. unfold bounceSelectedTokens.
  destruct (controlled w) as [|id0 rest0] eqn:Hsel.
  { cbn [fst snd]. rewrite emit_trace, updateTargets_app. simpl.
    by rewrite app_nil_r. }
  rewrite <- Hsel. clear Hsel id0 rest0.
  generalize (setting_bounceHeight w) (setting_bounceDuration w). intros h d.
  assert (∀ rest w0, tokens w0 = tokens w →
            (bounceLoop h d (setting_bounceCount w) rest w0).2 = []
            ∧ updateTargets (trace (bounceLoop h d (setting_bounceCount w) rest w0).1)
              = updateTargets (trace w0)) as Hloop.
  { induction rest as [|id rest IH]; intros w0 Hsame; [done|]. simpl.
    destruct (tokens w0 !! id) as [tok|] eqn:Hlookup; [|by apply IH].
    destruct (token_isOwner tok); simpl.
    - destruct (isAnimating tok); [by apply IH|].
      rewrite (doBounceAnimation_start id tok) by done.
      rewrite (proj2 (Z.ltb_ge 0 (setting_bounceCount w))) by done.
      destruct (IH w0 Hsame) as [Htasks Hupd].
      destruct (bounceLoop h d (setting_bounceCount w) rest w0) as [w2 tasks].
      simpl in *. by subst tasks.
    - match goal with
      | |- context [bounceLoop h d _ rest (emit ?e w0)] =>
          destruct (IH (emit e w0) Hsame) as [-> ->]
      end.
      split; [done|]. rewrite emit_trace, updateTargets_app. simpl.
      by rewrite app_nil_r. }
  destruct (Hloop (controlled w) w eq_refl) as [-> ->].
  split; [done|]. split; [done|]. apply bounceLoop_tokens.
Qed.

Lemma non_positive_count_bounces_nothing_witness :
  (bounceSelectedTokens
     (mkWorld (Some "S") (tokens (table [])) ["A"; "N"; "B"] [] ∅ 0 ∅ None
        200 20 150 0 [])).2 = [].
Proof.
  refine (proj1 (non_positive_count_bounces_nothing
                   (mkWorld (Some "S") (tokens (table [])) ["A"; "N"; "B"] [] ∅ 0 ∅ None
                      200 20 150 0 []) _)).
  simpl. lia.
Defined.

End BounceFrame.

(** * Properties of start-up, the configuration form and macros *)

Section EmoteList.
Import Emotes Flipper Startup Config Scenario.

(** X12.  Start-up writes the emote list only to fill an empty one, and
    only for a GM: afterwards the list is what it was, or it was empty,
    the user is a GM and it holds the default emotes.  Once start-up has
    returned, running it again changes nothing. *)
Theorem startup_only_fills_an_empty_list (isGM : bool) (s s' : Settlement) (w : World) :
  let r := initializeDefaultEmotes isGM s w in
  (setting_emotes r.1 = setting_emotes w
   ∨ (isGM = true ∧ setting_emotes w = Some []
      ∧ setting_emotes r.1 = Some getDefaultEmotes))
  ∧ (r.2 = Returned → initializeDefaultEmotes isGM s' r.1 = (r.1, Returned)).
Proof.
  unfold initializeDefaultEmotes. destruct isGM; simpl; [|by split; [left|]].
  destruct (setting_emotes w) as [[|e emotes]|] eqn:Hlist; simpl.
  - destruct s as [v|reason]; simpl.
    + split; [by right|done].
    + split; [by left|done].
  - split; [by left|]. by rewrite Hlist.
  - split; [by left|done].
Qed.

Lemma findEmote_filter_same emoteId emotes :
  findEmote emoteId
    (List.filter (λ e, negb (bool_decide (emote_id e = emoteId))) emotes) = None.
Proof.
  unfold findEmote. induction emotes as [|e emotes IH]; [done|]. simpl.
  destruct (bool_decide (emote_id e = emoteId)) eqn:Hid; simpl; [done|].
  by rewrite Hid.
Qed.

Lemma findEmote_filter_other emoteId other emotes :
  other ≠ emoteId →
  findEmote other
    (List.filter (λ e, negb (bool_decide (emote_id e = emoteId))) emotes)
  = findEmote other emotes.
Proof.
  intros Hne. unfold findEmote. induction emotes as [|e emotes IH]; [done|]. simpl.
  destruct (bool_decide (emote_id e = emoteId)) eqn:Hid; simpl.
  - apply bool_decide_eq_true in Hid.
    rewrite (bool_decide_false (emote_id e = other)) by congruence. done.
  - by rewrite IH.
Qed.

(** X13.  Deleting an emote through the form, once confirmed and
    written, removes every entry with that id and nothing else: the id
    is no longer found, every other id resolves to the emote it
    resolved to before, a later [playEmote] of the deleted id starts and
    broadcasts nothing, and a playback request for it is dropped. *)
Theorem deleted_emote_no_longer_plays
    (w : World) (emoteId : string) (v : option string)
    (sceneId : option string) (tokenId : string) :
  let r := onDeleteEmote emoteId true (Fulfilled v) w in
  findEmote emoteId (default [] (setting_emotes r.1)) = None
  ∧ (∀ other, other ≠ emoteId →
       findEmote other (default [] (setting_emotes r.1))
       = findEmote other (default [] (setting_emotes w)))
  ∧ (playEmote emoteId r.1).2 = []
  ∧ emitted (trace (playEmote emoteId r.1).1) = emitted (trace w)
  ∧ renderEmoteLocally sceneId tokenId emoteId r.1 = (r.1, None).
Proof.
  intros r. subst r.
  set (w' := (onDeleteEmote emoteId true (Fulfilled v) w).1).
  assert (setting_emotes w'
          = Some (List.filter (λ e, negb (bool_decide (emote_id e = emoteId)))
                    (default [] (setting_emotes w)))) as Hlist by done.
  assert (trace w' = trace w) as Htrace by done.
  assert (findEmote emoteId (default [] (setting_emotes w')) = None) as Hgone.
  { rewrite Hlist. apply findEmote_filter_same. }
  split; [done|].
  split; [intros other Hne; rewrite Hlist; by apply findEmote_filter_other|].
  rewrite <- Htrace.
  unfold playEmote, renderEmoteLocally. rewrite Hgone.
  repeat split.
  - by destruct (controlled w').
  - destruct (controlled w'); cbn [fst]; rewrite emit_trace, emitted_app; simpl;
      by rewrite app_nil_r.
  - case_bool_decide; [done|]. by destruct (tokens w' !! tokenId).
Qed.

Lemma findEmote_app emoteId emotes more :
  findEmote emoteId (emotes ++ more)
  = match findEmote emoteId emotes with
    | Some e => Some e
    | None => findEmote emoteId more
    end.
Proof.
  unfold findEmote. induction emotes as [|e emotes IH]; [done|]. simpl.
  by destruct (bool_decide (emote_id e = emoteId)).
Qed.

(** X14.  Adding an emote through the form appends it: every id that
    resolved before resolves to the same emote, including the new id if
    it was taken already; a fresh id resolves to the new emote, whose
    scale and timings are numbers other than 0. *)
Theorem added_emote_is_appended (w : World) (stamp : string) (v : option string)
    (other : string) :
  let r := onAddEmote stamp (Fulfilled v) w in
  let before := findEmote other (default [] (setting_emotes w)) in
  let after := findEmote other (default [] (setting_emotes r.1)) in
  match before with
  | Some e => after = Some e
  | None => after = if bool_decide (other = "emote-" +:+ stamp)
                    then Some (newEmote stamp) else None
  end
  ∧ playsAsStored (newEmote stamp) = true.
Proof.
  intros r before after. subst r before after.
  cbn [onAddEmote settingsSet fst with_setting_emotes setting_emotes default].
  split; [|done]. unfold id. rewrite findEmote_app.
  destruct (findEmote other _); [done|].
  unfold findEmote. cbn [List.find newEmote emote_id].
  rewrite (bool_decide_ext _ (other = "emote-" +:+ stamp)) by done.
  by case_bool_decide.
Qed.

End EmoteList.

Section FormUpdate.
Import Emotes Flipper Config Scenario.

Lemma applyRow_ids emotes entry :
  emote_id <$> applyRow emotes entry = emote_id <$> emotes.
Proof.
  destruct entry as [index data]. unfold applyRow.
  destruct (index <? 0)%Z; [done|].
  destruct (emotes !! Z.to_nat index) as [e|] eqn:Hlookup; [|done].
  rewrite list_fmap_insert. apply list_insert_id.
  by rewrite list_lookup_fmap, Hlookup.
Qed.

Lemma applyRows_ids entries : ∀ emotes,
  emote_id <$> fold_left applyRow entries emotes = emote_id <$> emotes.
Proof.
  induction entries as [|entry entries IH]; intros emotes; [done|].
  simpl. by rewrite IH, applyRow_ids.
Qed.

Lemma findEmote_is_Some emoteId emotes :
  is_Some (findEmote emoteId emotes) ↔ emoteId ∈ emote_id <$> emotes.
Proof.
  unfold findEmote. induction emotes as [|e emotes IH]; simpl.
  - split; [by intros [? ?]|by intros ?%elem_of_nil].
  - rewrite elem_of_cons. case_bool_decide as Hid.
    + split; [by left|by eexists].
    + rewrite IH. split; [by right|]. intros [Heq|Hin]; [congruence|done].
Qed.

(** X15.  Submitting the form never adds, removes, reorders or re-keys
    emotes: the ids of the stored list are the same, in the same order,
    whatever was submitted and whether or not the write went through;
    so an id resolves afterwards exactly when it resolved before. *)
Theorem form_update_keeps_the_emote_ids
    (formEmotes : option (list (Z * FormRow))) (s : Settlement) (w : World)
    (emoteId : string) :
  let w' := (updateObject formEmotes s w).1 in
  emote_id <$> default [] (setting_emotes w') = emote_id <$> default [] (setting_emotes w)
  ∧ (is_Some (findEmote emoteId (default [] (setting_emotes w')))
     ↔ is_Some (findEmote emoteId (default [] (setting_emotes w)))).
Proof.
  intros w'.
  assert (emote_id <$> default [] (setting_emotes w')
          = emote_id <$> default [] (setting_emotes w)) as Hids.
  { subst w'. unfold updateObject, settingsSet. destruct s as [v|reason]; [|done].
    cbn [fst with_setting_emotes setting_emotes]. destruct formEmotes as [entries|].
    - apply applyRows_ids.
    - by destruct (setting_emotes w). }
  split; [done|]. by rewrite !findEmote_is_Some, Hids.
Qed.

Lemma js_or_nonzero v d : Qnum d ≠ 0%Z → nonZeroNumber (JNumber (js_or v d)) = true.
Proof.
  intros Hd. destruct v as [| |q]; simpl; try by apply negb_true_iff, Z.eqb_neq.
  destruct (Z.eqb_spec (Qnum q) 0); by apply negb_true_iff, Z.eqb_neq.
Qed.

Lemma updateEmote_playsAsStored data e : playsAsStored (updateEmote data e) = true.
Proof.
  unfold playsAsStored, updateEmote. cbn [emote_scale emote_duration emote_fadeIn
    emote_fadeOut]. by rewrite !js_or_nonzero.
Qed.

Lemma nonZeroNumber_plays v d : nonZeroNumber v = true → JNumber (js_or v d) = v.
Proof.
  destruct v as [| |q]; simpl; try done.
  by destruct (Qnum q =? 0)%Z.
Qed.

Lemma applyRows_length entries : ∀ emotes,
  List.length (fold_left applyRow entries emotes) = List.length emotes.
Proof.
  induction entries as [|[index data] entries IH]; intros emotes; [done|].
  simpl. rewrite IH. destruct (index <? 0)%Z; [done|].
  destruct (emotes !! Z.to_nat index); [|done]. apply length_insert.
Qed.

(** A position that holds playable values keeps holding playable values. *)
Lemma applyRows_keep_playable entries : ∀ emotes j e e',
  emotes !! j = Some e → playsAsStored e = true →
  fold_left applyRow entries emotes !! j = Some e' →
  playsAsStored e' = true.
Proof.
  induction entries as [|[index data] entries IH]; intros emotes j e e' Hj He; simpl.
  { intros Hj'. congruence. }
  destruct (index <? 0)%Z; [by apply (IH emotes j e)|].
  destruct (emotes !! Z.to_nat index) as [e0|] eqn:Hindex; [|by apply (IH emotes j e)].
  destruct (decide (Z.to_nat index = j)) as [<-|Hne].
  - apply (IH _ (Z.to_nat index) (updateEmote data e0)).
    + apply list_lookup_insert_eq. by eapply lookup_lt_Some.
    + apply updateEmote_playsAsStored.
  - apply (IH _ j e); [|done]. by rewrite list_lookup_insert_ne.
Qed.

(** X16.  What the form has written plays as stored.  After a submitted
    form went through, every emote at a position named in it has a scale
    and timings that are numbers other than 0 (a submitted 0, blank or
    non-number was replaced by 1, 1500, 200 and 200), so playback uses
    exactly the stored values and never its own defaults. *)
Theorem form_update_stores_values_that_play_as_stored
    (entries : list (Z * FormRow)) (v : option string) (w : World)
    (index : Z) (data : FormRow) (e' : Emote) :
  (index, data) ∈ entries →
  (0 ≤ index)%Z →
  default [] (setting_emotes (updateObject (Some entries) (Fulfilled v) w).1)
    !! Z.to_nat index = Some e' →
  playsAsStored e' = true
  ∧ JNumber (js_or (emote_scale e') 1) = emote_scale e'
  ∧ JNumber (js_or (emote_duration e') 1500) = emote_duration e'
  ∧ JNumber (js_or (emote_fadeIn e') 200) = emote_fadeIn e'
  ∧ JNumber (js_or (emote_fadeOut e') 200) = emote_fadeOut e'.
Proof.
  intros Hin Hindex. cbn [updateObject settingsSet fst with_setting_emotes
    setting_emotes default]. unfold id.
  generalize (from_option (λ x : list Emote, x) [] (setting_emotes w)).
  intros emotes Hlookup.
  assert (playsAsStored e' = true) as Hplay.
  { revert emotes Hlookup.
    induction entries as [|[index0 data0] entries IH]; intros emotes Hlookup;
      [by apply elem_of_nil in Hin|].
    apply elem_of_cons in Hin as [[= <- <-]|Hin]; [|by eapply IH].
    simpl in Hlookup. rewrite (proj2 (Z.ltb_ge index 0)) in Hlookup by done.
    destruct (emotes !! Z.to_nat index) as [e0|] eqn:Hold.
    - eapply applyRows_keep_playable; [|apply updateEmote_playsAsStored|exact Hlookup].
      apply list_lookup_insert_eq. by eapply lookup_lt_Some.
    - apply lookup_lt_Some in Hlookup. rewrite applyRows_length in Hlookup.
      apply lookup_ge_None in Hold. lia. }
  split; [done|]. unfold playsAsStored in Hplay.
  apply andb_prop in Hplay as [[[Hscale Hduration]%andb_prop HfadeIn]%andb_prop HfadeOut].
  by rewrite !nonZeroNumber_plays.
Qed.

Lemma form_update_stores_values_that_play_as_stored_witness :
  playsAsStored
    (mkEmote "heart" "Love" "modules/tokenflipper/assets/heart.svg"
       (JNumber 0) (JNumber 0) (JNumber 1)
       (JNumber 1500) (JNumber 200) (JNumber 50)) = true.
Proof.
  refine (proj1 (form_update_stores_values_that_play_as_stored
            [(3%Z, mkRow (Some "Love") None JNaN (JNumber 0) (JNumber 0)
                      (JNumber 0) JNaN (JNumber 50))]
            None (table []) 3
            (mkRow (Some "Love") None JNaN (JNumber 0) (JNumber 0)
               (JNumber 0) JNaN (JNumber 50))
            _ _ _ _)).
  - by left.
  - lia.
  - reflexivity.
Defined.

(** The heart emote after that submission: renamed, image kept, and the
    cleared timings replaced by the defaults. *)
Example submitted_zero_is_stored_as_default :
  default []
    (setting_emotes
       (updateObject
          (Some [(3%Z, mkRow (Some "Love") None JNaN (JNumber 0) (JNumber 0)
                          (JNumber 0) JNaN (JNumber 50))])
          (Fulfilled None) (table [])).1) !! 3%nat
  = Some (mkEmote "heart" "Love" "modules/tokenflipper/assets/heart.svg"
            (JNumber 0) (JNumber 0) (JNumber 1)
            (JNumber 1500) (JNumber 200) (JNumber 50)).
Proof. reflexivity. Qed.

End FormUpdate.

Section MacroOnce.
Import Emotes Macros Scenario.

Lemma find_macro_app name (macros more : list Macro) :
  List.find (λ m, bool_decide (macro_name m = name)) (macros ++ more)
  = match List.find (λ m, bool_decide (macro_name m = name)) macros with
    | Some m => Some m
    | None => List.find (λ m, bool_decide (macro_name m = name)) more
    end.
Proof.
  induction macros as [|m macros IH]; [done|]. simpl.
  by destruct (bool_decide (macro_name m = name)).
Qed.

(** A creation that goes through returns the macro that a search by
    the emote's name finds from then on. *)
Lemma createEmoteMacro_fulfilled emote v macros w :
  ∃ macro,
    (createEmoteMacro emote (Fulfilled v) macros w).2 = Some macro
    ∧ macro_name macro = macroName emote
    ∧ List.find (λ m, bool_decide (macro_name m = macroName emote))
        (createEmoteMacro emote (Fulfilled v) macros w).1.2 = Some macro
    ∧ (NoDup (macro_name <$> macros) →
       NoDup (macro_name <$> (createEmoteMacro emote (Fulfilled v) macros w).1.2)).
Proof.
  unfold createEmoteMacro.
  destruct (List.find _ macros) as [existing|] eqn:Hfind; cbn [fst snd].
  - exists existing. split; [done|]. split; [|done].
    apply List.find_some in Hfind as [_ Hnamed].
    by apply bool_decide_eq_true in Hnamed.
  - eexists. split; [done|]. split; [done|]. split.
    + rewrite find_macro_app, Hfind. cbn [List.find macro_name].
      by rewrite bool_decide_true.
    + intros Hnd. rewrite fmap_app. apply NoDup_app. split; [done|].
      split; [|apply NoDup_singleton].
      intros name [m [-> Hm]]%list_elem_of_fmap [= Hclash]%list_elem_of_singleton.
      apply list_elem_of_In in Hm.
      pose proof (List.find_none _ _ Hfind m Hm) as Hnot. simpl in Hnot.
      by rewrite bool_decide_true in Hnot.
Qed.

(** X17.  A macro is made once per emote name.  A call of
    [createEmoteMacro] whose creation goes through returns a macro named
    after the emote that is among the world's macros; any later call for
    an emote of the same name, the same emote or another one, creates
    nothing and returns that same macro; and macro names that were
    distinct stay distinct. *)
Theorem emote_macro_is_created_once
    (emote emote' : Emote) (v : option string) (s' : Settlement)
    (macros : list Macro) (w w' : World) :
  macroName emote' = macroName emote →
  let first := createEmoteMacro emote (Fulfilled v) macros w in
  let again := createEmoteMacro emote' s' first.1.2 w' in
  ∃ macro,
    first.2 = Some macro
    ∧ macro_name macro = macroName emote
    ∧ macro ∈ first.1.2
    ∧ again.2 = Some macro
    ∧ again.1.2 = first.1.2
    ∧ (NoDup (macro_name <$> macros) → NoDup (macro_name <$> first.1.2)).
Proof.
  intros Hname first again.
  destruct (createEmoteMacro_fulfilled emote v macros w)
    as (macro & Hfirst & Hnamed & Hfind & Hnd).
  fold first in Hfirst, Hfind, Hnd. exists macro.
  split; [done|]. split; [done|]. split.
  { apply List.find_some in Hfind as [Hin _]. by apply list_elem_of_In. }
  subst again. unfold createEmoteMacro. rewrite Hname, Hfind. done.
Qed.

Lemma emote_macro_is_created_once_witness :
  ∃ macro,
    (createEmoteMacro blank (Fulfilled None) [] (table [])).2 = Some macro
    ∧ macro_name macro = "Emote: Blank".
Proof.
  destruct (emote_macro_is_created_once blank
              (mkEmote "other" "Blank" "" JNaN JNaN JNaN JNaN JNaN JNaN)
              None (Rejected "offline") [] (table []) (table []) eq_refl)
    as (macro & Hfirst & Hnamed & _).
  by exists macro.
Defined.

End MacroOnce.

Section Witnesses.
Import Emotes Flipper Startup Config Scenario.

Lemma startup_only_fills_an_empty_list_witness :
  setting_emotes
    (initializeDefaultEmotes true settled (with_setting_emotes (Some []) (table []))).1
  = Some getDefaultEmotes
  ∧ initializeDefaultEmotes true (Rejected "offline")
      (initializeDefaultEmotes true settled (with_setting_emotes (Some []) (table []))).1
    = ((initializeDefaultEmotes true settled
          (with_setting_emotes (Some []) (table []))).1, Returned).
Proof.
  split; [reflexivity|].
  exact (proj2 (startup_only_fills_an_empty_list true settled (Rejected "offline")
                  (with_setting_emotes (Some []) (table []))) eq_refl).
Defined.

Lemma deleted_emote_no_longer_plays_witness :
  findEmote "heart"
    (default [] (setting_emotes (onDeleteEmote "ellipsis" true settled (table [])).1))
  = findEmote "heart" (default [] (setting_emotes (table []))).
Proof.
  refine (proj1 (proj2 (deleted_emote_no_longer_plays (table []) "ellipsis" None None ""))
            "heart" _).
  discriminate.
Defined.

(** While a key is registered every trigger for the pair, a direct call
    or a received message, is dropped without any effect; and the
    fade-in and the hold of the call that holds the key, when they
    complete, leave the entry in place. *)
Lemma registered_key_drops_triggers
    (w : World) (tokenId emoteId : string) (sprite : nat)
    (sceneId : option string) (pool : list EmoteTask)
    (delegated : list Animation) (emote : Emote) (v : option string) :
  activeEmotes w !! emoteKey tokenId emoteId = Some sprite →
  let key := emoteKey tokenId emoteId in
  renderEmoteLocally sceneId tokenId emoteId w = (w, None)
  ∧ step (Receive (mkMessage "playEmote" sceneId tokenId emoteId)) (w, pool) = (w, pool)
  ∧ activeEmotes (Emotes.resume (AwaitFadeIn sprite delegated emote key) (Fulfilled v) w).1 !! key
    = Some sprite
  ∧ activeEmotes (Emotes.resume (AwaitHold sprite emote key) (Fulfilled v) w).1 !! key
    = Some sprite.
Proof.
  intros Hregistered key. subst key.
  pose proof (registered_key_suppresses w sceneId tokenId emoteId sprite Hregistered)
    as Hdropped.
  split; [done|]. split.
  { unfold step, onSocketMessage. simpl. rewrite Hdropped. simpl. by rewrite app_nil_r. }
  split; [done|]. cbn [Emotes.resume]. unfold animateSprite.
  by destruct (Qle_bool _ 0).
Qed.

Lemma registered_key_drops_triggers_on_the_table :
  renderEmoteLocally (Some "S") "T" "heart"
    (playback (Some "S") "T" "heart" [heartTexture; settled] (table [])).1
  = ((playback (Some "S") "T" "heart" [heartTexture; settled] (table [])).1, None).
Proof.
  refine (proj1 (registered_key_drops_triggers
            (playback (Some "S") "T" "heart" [heartTexture; settled] (table [])).1
            "T" "heart" 0 (Some "S") [] [] blank None _)).
  vm_compute. reflexivity.
Defined.

(** Resetting to the defaults, previewing with nothing selected and
    making a macro for an id that is not configured. *)
Example form_buttons_on_the_table :
  setting_emotes (onResetDefaults true settled
                    (with_setting_emotes (Some [blank]) (table []))).1
  = Some getDefaultEmotes
  ∧ onPreviewEmote "heart" (table [])
    = (emit (Notify Warn "Select a token to preview the emote.") (table []), [])
  ∧ onPreviewEmote "heart" (table ["T"]) = playEmote "heart" (table ["T"])
  ∧ onCreateMacro "ghost" settled [] (table []) = (table [], [])
  ∧ Macros.macro_command <$> (onCreateMacro "heart" settled [] (table [])).2
    = ["game.modules.get(" +:+ dquote +:+ "tokenflipper" +:+ dquote
         +:+ ").api.playEmote(" +:+ dquote +:+ "heart" +:+ dquote +:+ ");"].
Proof. vm_compute. done. Qed.

End Witnesses.

(** * Bounces, half-step by half-step *)

Section BounceHalfSteps.
Import Flipper Scenario.

Lemma cycles_length tokenId y0 h d n :
  List.length (cycles tokenId y0 h d n) = (2 * n)%nat.
Proof.
  induction n as [|n IH]; [done|].
  rewrite cycles_S, length_app, IH. simpl. lia.
Qed.

(** The updates of a bounce alternate: up at the even positions, down
    at the odd ones. *)
Lemma cycles_lookup tokenId y0 h d n j :
  (j < n)%nat →
  cycles tokenId y0 h d n !! (2 * j)%nat = Some (bounceUp tokenId y0 h d)
  ∧ cycles tokenId y0 h d n !! S (2 * j) = Some (bounceDown tokenId y0 d).
Proof.
  intros Hlt. replace n with (j + (1 + (n - j - 1)))%nat by lia.
  rewrite cycles_app.
  pose proof (cycles_length tokenId y0 h d j) as Hlen.
  set (first := cycles tokenId y0 h d j) in *.
  unfold cycles. cbn [Nat.add repeat concat app].
  split.
  - rewrite lookup_app_r by lia.
    rewrite Hlen. by replace (2 * j - 2 * j)%nat with 0%nat by lia.
  - rewrite lookup_app_r by lia.
    rewrite Hlen. by replace (S (2 * j) - 2 * j)%nat with 1%nat by lia.
Qed.

(** A number of fulfilments is twice a number of cycles, or one more. *)
Lemma half_steps (k : nat) :
  ∃ j, (k = (2 * j)%nat ∧ Nat.even k = true ∧ (k / 2)%nat = j
        ∧ Nat.even (S k) = false ∧ (S k / 2)%nat = j)
     ∨ (k = S (2 * j) ∧ Nat.even k = false ∧ (k / 2)%nat = j
        ∧ Nat.even (S k) = true ∧ (S k / 2)%nat = S j).
Proof.
  assert (∀ j, Nat.even (2 * j) = true) as Heven.
  { intros j. apply Nat.even_spec. by exists j. }
  destruct (Nat.Even_or_Odd k) as [[j ->]|[j ->]]; exists j; [left|right].
  - split; [done|]. split; [done|]. split.
    { symmetry. apply (Nat.div_unique _ 2 j 0); lia. }
    split.
    { by rewrite Nat.even_succ, <- Nat.negb_even, Heven. }
    symmetry. apply (Nat.div_unique _ 2 j 1); lia.
  - replace (2 * j + 1)%nat with (S (2 * j)) by lia.
    split; [done|]. split.
    { by rewrite Nat.even_succ, <- Nat.negb_even, Heven. }
    split.
    { symmetry. apply (Nat.div_unique _ 2 j 1); lia. }
    split.
    { replace (S (S (2 * j))) with (2 * S j)%nat by lia. apply Heven. }
    symmetry. apply (Nat.div_unique _ 2 (S j) 0); lia.
Qed.

Lemma bounceAfter_unfold tokenId y0 h d count before k w pool :
  bounceAfter tokenId y0 h d count before k (w, pool)
  ↔ (k ≤ 2 * Z.to_nat count)%nat
    ∧ updatesOf tokenId (trace w)
      = before ++ take (S k) (cycles tokenId y0 h d (Z.to_nat count))
    ∧ doc_y <$> tokens w !! tokenId = Some (if Nat.even k then y0 else (y0 - h)%Q)
    ∧ bouncesOf tokenId pool
      = if (k <? 2 * Z.to_nat count)%nat
        then [mkBounce tokenId y0 h d count (Z.of_nat (k / 2))
                (if Nat.even k then Up else Down)]
        else [].
Proof. done. Qed.

(** One fulfilment takes the bounce of a token one half-step further
    when it goes to that bounce, and leaves it where it stands when it
    goes to another. *)
Lemma bounceAfter_settle tokenId y0 h d count before k i v c :
  bounceAfter tokenId y0 h d count before k c →
  bounceAfter tokenId y0 h d count before
    (k + match c.2 !! i with
         | Some task => if bool_decide (bounce_token task = tokenId) then 1 else 0
         | None => 0
         end)
    (settle i (Fulfilled v) c).
Proof.
  destruct c as [w pool]. intros Hc.
  destruct (proj1 (bounceAfter_unfold _ _ _ _ _ _ _ w pool) Hc)
    as (Hle & Hupd & Hy & Hpool). clear Hc.
  unfold snd at 1.
  destruct (pool !! i) as [task|] eqn:Hi.
  2:{ rewrite Nat.add_0_r. unfold settle. rewrite Hi. by apply bounceAfter_unfold. }
  destruct (settle_split i (Fulfilled v) w pool task Hi) as (pre & post & -> & ->).
  clear Hi. rewrite !bouncesOf_app in Hpool. rewrite bouncesOf_one in Hpool.
  apply bounceAfter_unfold. rewrite !bouncesOf_app.
  destruct (decide (bounce_token task = tokenId)) as [Hown|Hother].
  2:{ rewrite bool_decide_false by done. rewrite Nat.add_0_r.
      destruct (resume_other tokenId task v w Hother) as (-> & -> & ->). done. }
  rewrite bool_decide_true by done.
  replace (k + 1)%nat with (S k) by lia.
  destruct (k <? 2 * Z.to_nat count)%nat eqn:Hk;
    [|by destruct (bouncesOf tokenId pre)].
  apply Nat.ltb_lt in Hk.
  destruct (bouncesOf tokenId pre) as [|a pre'] eqn:Hpre;
    [|injection Hpool as _ Habs; by destruct pre'].
  destruct (bouncesOf tokenId post) as [|b post'] eqn:Hpost; [|done].
  destruct (tokens w !! tokenId) as [token|] eqn:Htoken; [|done].
  rewrite app_nil_l, app_nil_r in *.
  destruct (half_steps k) as [j [(Hkj & Hev & Hhalf & -> & ->)|(Hkj & Hev & Hhalf & -> & ->)]];
    rewrite Hev, Hhalf in Hpool; rewrite Hev in Hy; clear Hev Hhalf;
    injection Hpool as ->; clear Hown; subst k;
    unfold resume; cbn [bounce_phase bounce_token bounce_originalY bounce_height
      bounce_duration bounce_count bounce_i].
  - (* the up half was fulfilled: the token is up and the down half is requested *)
    destruct (cycles_lookup tokenId y0 h d (Z.to_nat count) j) as [_ Hdown]; [lia|].
    split; [lia|]. split; [|split].
    + cbn [fst]. rewrite emit_trace, updatesOf_app, updatesOf_bounceDown, decide_True by done.
      cbn [documentUpdated with_tokens trace].
      rewrite Hupd, (take_S_r _ (S (2 * j)) _ Hdown). by rewrite <- (assoc_L (++)).
    + cbn [fst emit tokens].
      by rewrite documentUpdated_lookup, decide_True, Htoken by done.
    + cbn [snd spawned]. rewrite bouncesOf_one. cbn [bounce_token].
      rewrite decide_True by done.
      destruct (S (2 * j) <? 2 * Z.to_nat count)%nat eqn:Hmore; [done|].
      apply Nat.ltb_ge in Hmore. lia.
  - (* the down half was fulfilled: the token is back and the loop goes on or ends *)
    unfold bounceIteration. destruct (Z.of_nat j + 1 <? count)%Z eqn:Hmore.
    + apply Z.ltb_lt in Hmore.
      destruct (cycles_lookup tokenId y0 h d (Z.to_nat count) (S j)) as [Hup _]; [lia|].
      replace (2 * S j)%nat with (S (S (2 * j))) in Hup by lia.
      replace (Z.of_nat j + 1)%Z with (Z.of_nat (S j)) by lia.
      split; [lia|]. split; [|split].
      * cbn [fst]. rewrite emit_trace, updatesOf_app, updatesOf_bounceUp, decide_True by done.
        cbn [documentUpdated with_tokens trace].
        rewrite Hupd, (take_S_r _ (S (S (2 * j))) _ Hup). by rewrite <- (assoc_L (++)).
      * cbn [fst emit tokens].
        by rewrite documentUpdated_lookup, decide_True, Htoken by done.
      * cbn [snd spawned]. rewrite bouncesOf_one. cbn [bounce_token].
        rewrite decide_True by done.
        destruct (S (S (2 * j)) <? 2 * Z.to_nat count)%nat eqn:Hlt; [done|].
        apply Nat.ltb_ge in Hlt. lia.
    + apply Z.ltb_ge in Hmore.
      pose proof (cycles_length tokenId y0 h d (Z.to_nat count)) as Hlen.
      split; [lia|]. split; [|split].
      * cbn [fst documentUpdated with_tokens trace]. rewrite Hupd.
        by rewrite !take_ge by lia.
      * cbn [fst]. by rewrite documentUpdated_lookup, decide_True, Htoken by done.
      * cbn [snd spawned].
        destruct (S (S (2 * j)) <? 2 * Z.to_nat count)%nat eqn:Hlt; [|done].
        apply Nat.ltb_lt in Hlt. lia.
Qed.

Lemma bounceAfter_settleAll tokenId y0 h d count before schedule : ∀ k c,
  bounceAfter tokenId y0 h d count before k c →
  bounceAfter tokenId y0 h d count before
    (k + fulfilledFor tokenId schedule c) (settleAll schedule c).
Proof.
  induction schedule as [|i schedule IH]; intros k c Hc.
  { simpl. by rewrite Nat.add_0_r. }
  cbn [fulfilledFor]. rewrite Nat.add_assoc.
  apply (IH _ (settle i (Fulfilled None) c)). by apply bounceAfter_settle.
Qed.

(** The loop of [bounceSelectedTokens] leaves a selected token that is
    owned and idle with its first update requested and nothing
    fulfilled. *)
Lemma bounceAfter_start w tokenId token :
  NoDup (controlled w) →
  tokenId ∈ controlled w →
  tokens w !! tokenId = Some token →
  token_isOwner token = true →
  isAnimating token = false →
  bounceAfter tokenId (doc_y token) (setting_bounceHeight w) (setting_bounceDuration w)
    (setting_bounceCount w) (updatesOf tokenId (trace w)) 0 (bounceSelectedTokens w).
Proof.
  intros Hnd Hin Htoken Hown Hidle. unfold bounceSelectedTokens.
  destruct (controlled w) eqn:Hsel; [by apply elem_of_nil in Hin|].
  rewrite <- Hsel in *.
  destruct (bounceLoop_token (setting_bounceHeight w) (setting_bounceDuration w)
              (setting_bounceCount w) w tokenId (controlled w) w eq_refl)
    as (Htok & _ & Hsel').
  destruct (Hsel' Hnd Hin token Htoken Hown Hidle) as [Hupd Htasks].
  destruct (bounceLoop _ _ _ _ w) as [w' pool]. cbn [fst snd] in *.
  apply bounceAfter_unfold. rewrite Htok, Htoken, Htasks, Hupd.
  split; [lia|].
  destruct (0 <? setting_bounceCount w)%Z eqn:Hcount.
  - apply Z.ltb_lt in Hcount.
    destruct (cycles_lookup tokenId (doc_y token) (setting_bounceHeight w)
                (setting_bounceDuration w) (Z.to_nat (setting_bounceCount w)) 0)
      as [Hup _]; [lia|].
    rewrite (take_S_r _ 0 _ Hup).
    split; [done|]. split; [done|].
    destruct (0 <? 2 * Z.to_nat (setting_bounceCount w))%nat eqn:Hlt; [done|].
    apply Nat.ltb_ge in Hlt. lia.
  - apply Z.ltb_ge in Hcount.
    replace (Z.to_nat (setting_bounceCount w)) with 0%nat by lia. done.
Qed.

(** C7.  A selected token that is owned and idle, with document y equal
    to y0, in a selection that is bounced; the host fulfils the pending
    updates of all the bounces in flight in any order, and [k] of these
    fulfilments go to this token's updates.  Then [k] is at most twice
    [count]; the updates requested for the token are the first [k + 1]
    of [count] cycles (up to y0 - height with easing easeOutQuad, back
    to y0 with easing easeInQuad), or all of them once [k] is twice
    [count]: each half-step is requested only when the one before it was
    fulfilled; the document y is y0 - height after an odd number of
    fulfilments and y0 after an even number; the bounce is over exactly
    when [k] is twice [count], and then exactly [count] cycles were
    requested and y is y0 again; and the host can always bring every
    bounce to its end.  Nothing in this depends on the other tokens of
    the selection or on the fulfilments that go to them. *)
Theorem bounce_cycles_return_each_token_to_its_y
    (w : World) (schedule : list nat) (tokenId : string) (token : Token) :
  NoDup (controlled w) →
  tokenId ∈ controlled w →
  tokens w !! tokenId = Some token →
  token_isOwner token = true →
  isAnimating token = false →
  let y0 := doc_y token in
  let h := setting_bounceHeight w in
  let d := setting_bounceDuration w in
  let count := Z.to_nat (setting_bounceCount w) in
  let start := bounceSelectedTokens w in
  let c := settleAll schedule start in
  let k := fulfilledFor tokenId schedule start in
  let requested := take (S k) (cycles tokenId y0 h d count) in
  (k ≤ 2 * count)%nat
  ∧ updatesOf tokenId (trace c.1) = updatesOf tokenId (trace w) ++ requested
  ∧ List.length requested = (S k `min` (2 * count))%nat
  ∧ requested `prefix_of` cycles tokenId y0 h d count
  ∧ doc_y <$> tokens c.1 !! tokenId = Some (if Nat.even k then y0 else (y0 - h)%Q)
  ∧ (bouncesOf tokenId c.2 = [] ↔ k = (2 * count)%nat)
  ∧ (bouncesOf tokenId c.2 = [] →
     requested = cycles tokenId y0 h d count
     ∧ doc_y <$> tokens c.1 !! tokenId = Some y0)
  ∧ (∃ more, (settleAll more c).2 = [])
  ∧ cycles tokenId y0 h d 1
    = [DocumentUpdate tokenId DocY (y0 - h)%Q true (d / 2)%Q (Some "easeOutQuad");
       DocumentUpdate tokenId DocY y0 true (d / 2)%Q (Some "easeInQuad")].
Proof.
  intros Hnd Hin Htoken Hown Hidle y0 h d count start c k requested.
  pose proof (bounceAfter_settleAll _ _ _ _ _ _ schedule 0 _
                (bounceAfter_start w tokenId token Hnd Hin Htoken Hown Hidle)) as Hafter.
  rewrite Nat.add_0_l in Hafter. fold y0 h d start k in Hafter.
  subst c. destruct (settleAll schedule start) as [w' pool].
  destruct (proj1 (bounceAfter_unfold _ _ _ _ _ _ _ w' pool) Hafter)
    as (Hle & Hupd & Hy & Hpool).
  clear Hafter. fold count requested in Hle, Hupd, Hpool. cbn [fst snd].
  pose proof (cycles_length tokenId y0 h d count) as Hlen.
  assert (bouncesOf tokenId pool = [] ↔ k = (2 * count)%nat) as Hover.
  { rewrite Hpool. destruct (k <? 2 * count)%nat eqn:Hlt.
    - apply Nat.ltb_lt in Hlt. split; [done|lia].
    - apply Nat.ltb_ge in Hlt. split; [lia|done]. }
  split; [done|]. split; [done|]. split.
  { unfold requested. rewrite length_take, Hlen. done. }
  split; [apply prefix_take|]. split; [done|]. split; [done|]. split.
  { intros Hk%Hover. split.
    - unfold requested. apply take_ge. lia.
    - rewrite Hy, Hk. 
      replace (Nat.even (2 * count)) with true; [done|].
      symmetry. apply Nat.even_spec. by exists count. }
  split; [|done].
  exists (repeat 0%nat (awaitsAheadAll pool)). by apply bounces_drain.
Qed.

Lemma bounce_cycles_return_each_token_to_its_y_witness :
  let c := settleAll [0; 1; 1; 0; 1]%nat (bounceSelectedTokens (table ["A"; "N"; "B"])) in
  updatesOf "B" (trace c.1)
  = take 4 (cycles "B" 75 20 150 3)
  ∧ doc_y <$> tokens c.1 !! "B" = Some (75 - 20)%Q.
Proof.
  pose proof (bounce_cycles_return_each_token_to_its_y (table ["A"; "N"; "B"])
                [0; 1; 1; 0; 1]%nat "B" tokenB) as Hbounce.
  cbv zeta in Hbounce.
  destruct Hbounce as (_ & Hupd & _ & _ & Hy & _).
  - simpl. repeat (apply NoDup_cons; split;
      [intros Hin; repeat (apply elem_of_cons in Hin as [Heq|Hin]; [discriminate|]);
       by apply elem_of_nil in Hin|]).
    apply NoDup_nil_2.
  - simpl. do 2 (apply elem_of_cons; right). apply elem_of_cons. by left.
  - vm_compute. reflexivity.
  - reflexivity.
  - reflexivity.
  - split; [exact Hupd|exact Hy].
Defined.

End BounceHalfSteps.

(** * Playback calls among other calls *)

Section PlaybackInterleaved.
Import Emotes Scenario.

(** Resuming a call touches no key of the registry but its own. *)
Lemma resume_other_keys task s w key :
  key ≠ taskKey task →
  activeEmotes (resume task s w).1 !! key = activeEmotes w !! key.
Proof.
  intros Hkey.
  destruct task, s as [[texture|]|reason]; simpl in *;
    unfold startSprite, animateSprite; simpl;
    try (destruct (Qle_bool _ 0); simpl);
    rewrite ?lookup_delete_ne, ?lookup_insert_ne by done;
    done.
Qed.

Lemma playEmote_registry emoteId w :
  activeEmotes (playEmote emoteId w).1 = activeEmotes w.
Proof.
  unfold playEmote. destruct (controlled w) eqn:Hsel; [done|].
  destruct (findEmote emoteId _); [|done]. rewrite <- Hsel.
  destruct (playEmoteLoop_logs emoteId (controlled w) w) as [events ->].
  by destruct (logged_stage events w) as (_ & _ & _ & _ & _ & _ & -> & _).
Qed.

Lemma onSocketMessage_registry data w :
  activeEmotes (onSocketMessage data w).1 = activeEmotes w.
Proof.
  unfold onSocketMessage. case_bool_decide; [|done].
  destruct (renderEmoteLocally_logs (msg_sceneId data) (msg_tokenId data)
              (msg_emoteId data) w) as [events ->].
  by destruct (logged_stage events w) as (_ & _ & _ & _ & _ & _ & -> & _).
Qed.

(** Settling the call at position [i] resumes it in place. *)
Lemma step_settle_split i s w pool task :
  pool !! i = Some task →
  ∃ pre post,
    pool = pre ++ [task] ++ post
    ∧ step (Settle i s) (w, pool)
      = ((resume task s w).1, pre ++ spawned (resume task s w).2 ++ post).
Proof.
  intros Hi. exists (take i pool), (drop (S i) pool). split.
  { symmetry. apply take_drop_middle, Hi. }
  unfold step. rewrite Hi. destruct (resume task s w) as [w' [task'|]]; simpl.
  - f_equal. apply insert_take_drop. by eapply lookup_lt_Some.
  - f_equal. apply delete_take_drop.
Qed.







End PlaybackInterleaved.

Section SolePlayback.
Import Emotes Scenario.

Lemma callsOf_app key l1 l2 : callsOf key (l1 ++ l2) = callsOf key l1 ++ callsOf key l2.
Proof. apply List.filter_app. Qed.

Lemma callsOf_one key task :
  callsOf key [task] = if decide (taskKey task = key) then [task] else [].
Proof.
  unfold callsOf. simpl. destruct (decide (taskKey task = key));
    [by rewrite bool_decide_true | by rewrite bool_decide_false].
Qed.

(** A call started by [renderEmoteLocally] works under a key that is
    not registered. *)
Lemma renderEmoteLocally_key_free sceneId tokenId emoteId w task :
  (renderEmoteLocally sceneId tokenId emoteId w).2 = Some task →
  activeEmotes w !! taskKey task = None.
Proof.
  unfold renderEmoteLocally.
  case_bool_decide; [done|].
  destruct (tokens w !! tokenId); [|done].
  destruct (findEmote emoteId _) as [emote|]; [|done].
  case_bool_decide as Hreg; [done|]. cbn [snd]. intros [= <-]. cbn [taskKey].
  destruct (activeEmotes w !! emoteKey tokenId emoteId) eqn:Hkey; [|done].
  destruct Hreg. by eexists.
Qed.

Lemma playEmoteLoop_keys_free emoteId w0 rest : ∀ w,
  activeEmotes w = activeEmotes w0 →
  Forall (λ task, activeEmotes w0 !! taskKey task = None) (playEmoteLoop emoteId rest w).2.
Proof.
  induction rest as [|id rest IH]; intros w Hsame; simpl; [done|].
  destruct (tokens w !! id) as [tok|]; [|by apply IH].
  destruct (token_isOwner tok); simpl; [|by apply IH].
  destruct (scene w) as [sceneId|]; [|done].
  pose proof (renderEmoteLocally_key_free (Some sceneId) id emoteId w) as Hfree.
  destruct (renderEmoteLocally_logs (Some sceneId) id emoteId w) as [events Hlog].
  destruct (renderEmoteLocally (Some sceneId) id emoteId w) as [w1 task].
  cbn [fst snd] in *. subst w1.
  match goal with
  | |- context [playEmoteLoop emoteId rest ?w2] =>
      pose proof (IH w2) as Hrest; destruct (playEmoteLoop emoteId rest w2) as [w3 tasks]
  end.
  cbn [snd] in *. apply Forall_app. split.
  - destruct task as [task|]; [|done]. apply Forall_singleton.
    rewrite <- Hsame. by apply Hfree.
  - apply Hrest. cbn [emit activeEmotes].
    by destruct (logged_stage events w) as (_ & _ & _ & _ & _ & _ & -> & _).
Qed.

Lemma callsOf_keys_free key sprite (registry : gmap string nat) tasks :
  registry !! key = Some sprite →
  Forall (λ task, registry !! taskKey task = None) tasks →
  callsOf key tasks = [].
Proof.
  intros Hreg. induction 1 as [|task tasks Hfree _ IH]; [done|].
  change (task :: tasks) with ([task] ++ tasks).
  rewrite callsOf_app, callsOf_one, IH, decide_False; [done|].
  intros Hkey. rewrite Hkey in Hfree. congruence.
Qed.

(** One step of a client keeps a sole registered playback as it is,
    unless the step ends that call; and while it is registered every
    trigger for the pair is dropped. *)
Lemma soleRegistered_step (key : string) (sprite : nat) (a : Action) (c : Client) :
  soleRegistered key sprite c →
  endsCall key a c = false →
  soleRegistered key sprite (step a c)
  ∧ ∀ sceneId tokenId emoteId,
      emoteKey tokenId emoteId = key →
      renderEmoteLocally sceneId tokenId emoteId c.1 = (c.1, None)
      ∧ step (Receive (mkMessage "playEmote" sceneId tokenId emoteId)) c = c.
Proof.
  destruct c as [w pool]. intros (Hreg & task & Hsole & Hpast) Hgoes.
  cbn [fst snd] in *. split.
  2:{ intros sceneId tokenId emoteId <-.
      pose proof (registered_key_suppresses w sceneId tokenId emoteId sprite Hreg)
        as Hdropped.
      split; [done|].
      unfold step, onSocketMessage. simpl. rewrite Hdropped. simpl.
      by rewrite app_nil_r. }
  unfold soleRegistered. destruct a as [emoteId|data|i s].
  - (* a local trigger *)
    unfold step. pose proof (playEmote_registry emoteId w) as Hsame.
    assert (callsOf key (playEmote emoteId w).2 = []) as Hnone.
    { apply (callsOf_keys_free key sprite (activeEmotes w)); [done|].
      unfold playEmote. destruct (controlled w) eqn:Hsel; [done|].
      destruct (findEmote emoteId _); [|done]. rewrite <- Hsel.
      by apply playEmoteLoop_keys_free. }
    destruct (playEmote emoteId w) as [w' tasks]. cbn [fst snd] in *.
    split; [by rewrite Hsame|]. exists task.
    by rewrite callsOf_app, Hnone, app_nil_r.
  - (* a received message *)
    unfold step. pose proof (onSocketMessage_registry data w) as Hsame.
    assert (callsOf key (spawned (onSocketMessage data w).2) = []) as Hnone.
    { apply (callsOf_keys_free key sprite (activeEmotes w)); [done|].
      unfold onSocketMessage. case_bool_decide; [|done].
      pose proof (renderEmoteLocally_key_free (msg_sceneId data) (msg_tokenId data)
                    (msg_emoteId data) w) as Hfree.
      destruct (renderEmoteLocally _ _ _ w) as [w1 [started|]]; [|done].
      apply Forall_singleton. by apply Hfree. }
    destruct (onSocketMessage data w) as [w' started]. cbn [fst snd] in *.
    split; [by rewrite Hsame|]. exists task.
    by rewrite callsOf_app, Hnone, app_nil_r.
  - (* a settlement *)
    destruct (pool !! i) as [t|] eqn:Hi.
    2:{ unfold step. rewrite Hi. split; [done|]. by exists task. }
    unfold endsCall in Hgoes. cbn [snd] in Hgoes. rewrite Hi in Hgoes.
    destruct (step_settle_split i s w pool t Hi) as (pre & post & -> & ->).
    cbn [fst snd]. rewrite !callsOf_app in *. rewrite callsOf_one in Hsole.
    destruct (decide (taskKey t = key)) as [Hown|Hother].
    + (* of the call itself: its fade-in or its hold is over *)
      rewrite bool_decide_true in Hgoes by done. cbn [andb] in Hgoes.
      apply orb_false_elim in Hgoes as [Hfulfilled Hstage].
      destruct (callsOf key pre) as [|a pre'];
        [|injection Hsole as _ Habs; by destruct pre'].
      destruct (callsOf key post) as [|b post']; [|done].
      cbn [app] in Hsole. injection Hsole as ->.
      destruct s as [v|reason]; [|done].
      destruct task; try discriminate; cbn [taskKey] in Hown; subst key.
      * cbn [resume fst snd spawned]. split; [done|].
        eexists. by rewrite callsOf_one, decide_True.
      * cbn [resume]. 
        match goal with
        | |- context [animateSprite ?sp ?props ?du ?w0] =>
            pose proof (animateSprite_frame sp props du w0) as Hframe;
            cbv zeta in Hframe; destruct Hframe as (Hsame & _);
            destruct (animateSprite sp props du w0) as [w1 delegated]
        end.
        cbn [fst snd spawned] in *. split; [by rewrite Hsame|].
        eexists. by rewrite callsOf_one, decide_True.
    + (* of another call *)
      rewrite (resume_other_keys t s w key) by done.
      split; [done|]. exists task. split; [|done].
      rewrite <- Hsole. f_equal. f_equal.
      destruct (resume t s w) as [w' [t'|]] eqn:Hstep; [|done].
      destruct (resume_continues _ _ _ _ _ Hstep) as (Hsamekey & _).
      cbn [snd spawned]. rewrite callsOf_one, decide_False; [done|]. congruence.
Qed.

(** X18.  A key registered to a sprite, with one call working under it,
    which is past loading.  Through any sequence of local triggers,
    received messages and settlements of any calls in which that call
    does not end (its fade-out does not complete and none of its
    promises is rejected), the key stays registered to the same sprite
    and that call stays the only one working under it; and at the end
    of the sequence, as at every point of it, a trigger for the pair, a
    direct call or a received message, is dropped without any
    effect. *)
Theorem sole_registered_playback_keeps_its_key
    (key : string) (sprite : nat) (actions : list Action) (c : Client) :
  soleRegistered key sprite c →
  callGoesOn key actions c = true →
  let c' := run actions c in
  soleRegistered key sprite c'
  ∧ ∀ sceneId tokenId emoteId,
      emoteKey tokenId emoteId = key →
      renderEmoteLocally sceneId tokenId emoteId c'.1 = (c'.1, None)
      ∧ step (Receive (mkMessage "playEmote" sceneId tokenId emoteId)) c' = c'.
Proof.
  revert c. induction actions as [|a actions IH]; intros c Hsole Hgoes.
  - split; [done|].
    apply (soleRegistered_step key sprite (Settle (List.length c.2) (Fulfilled None)) c Hsole).
    unfold endsCall. by rewrite lookup_ge_None_2.
  - cbn [callGoesOn] in Hgoes. apply andb_prop in Hgoes as [Hnow Hlater].
    apply negb_true_iff in Hnow.
    apply (IH (step a c)); [|done].
    by apply soleRegistered_step.
Qed.

Lemma sole_registered_playback_keeps_its_key_witness :
  let c := run [Receive heartOnT; Settle 0 heartTexture] (table ["T"], []) in
  let c' := run [Receive heartOnT; Settle 0 settled; Play "heart"; Settle 0 settled] c in
  soleRegistered (emoteKey "T" "heart") 0 c'
  ∧ step (Receive heartOnT) c' = c'.
Proof.
  destruct (sole_registered_playback_keeps_its_key (emoteKey "T" "heart") 0
              [Receive heartOnT; Settle 0 settled; Play "heart"; Settle 0 settled]
              (run [Receive heartOnT; Settle 0 heartTexture] (table ["T"], [])))
    as [Hstays Hdrops].
  - split; [reflexivity|]. eexists. split; reflexivity.
  - vm_compute. reflexivity.
  - split; [exact Hstays|].
    exact (proj2 (Hdrops (Some "S") "T" "heart" eq_refl)).
Defined.

End SolePlayback.
